(** * Crafty carpenter: a workbench, a row of cabinets and the outside

    Shallow embedding of [carpenter.cpp].  A [Cabinet] is a [std::deque<Item>]
    with a [uint16_t] capacity; the [WorkShop] owns the workbench (a cabinet
    of size 1), the cabinets given by the configuration and the cabinet
    called Outside.  Operations the C++ code leaves undefined or guards by
    [assert] ([back()] of an empty deque, [pop] at [end()], [pop_back] of an
    empty cabinet) return [None]. *)

From Stdlib Require Import String.
From Stdlib Require Import ZArith List Lia.
From Stdlib Require Finite.
Import ListNotations.
Local Open Scope Z_scope.

(** ** Items and results *)

(** [using Item = int64_t;] *)
Definition Item : Type := Z.

(** [constexpr Item kSentinelItem = std::numeric_limits<Item>::max();] *)
Definition kSentinelItem : Item := 9223372036854775807.

(** [struct Result { int64_t cabinet_nr; std::string status; }] *)
Record Result : Type := mkResult { cabinet_nr : Z; status : string }.

(** [explicit Result(int64_t nr) : cabinet_nr(nr) {}] *)
Definition Result_nr (nr : Z) : Result := mkResult nr EmptyString.

(** [explicit Result(const std::string &str) : cabinet_nr(kSentinelItem), status(str) {}] *)
Definition Result_str (str : string) : Result := mkResult kSentinelItem str.

(** The three provenances a call of [workOn] reports. *)
Definition NEW : Result := Result_str "NEW"%string.
Definition OUTSIDE : Result := Result_str "OUTSIDE"%string.
Definition TIER (k : Z) : Result := Result_nr k.

(** What [main] prints for a result: the number when [cabinet_nr] is not the
    sentinel, the status text otherwise. *)
Definition printed (res : Result) : Z + string :=
  if negb (cabinet_nr res =? kSentinelItem) then inl (cabinet_nr res)
  else inr (status res).

(** ** The option monad of faulting operations *)

Definition bind {A B : Type} (m : option A) (k : A -> option B) : option B :=
  match m with
  | Some a => k a
  | None => None
  end.

Notation "x <- m ;; k" := (bind m (fun x => k))
  (at level 61, m at next level, right associativity).
Notation "' p <- m ;; k" := (bind m (fun x => let p := x in k))
  (at level 61, p pattern, m at next level, right associativity).

(** ** Cabinet *)

(** Conversion of an [int64_t] to [uint16_t], as the constructor's
    [mSize(size)] does. *)
Definition to_uint16 (z : Z) : Z := z mod 65536.

(** [uint16_t mSize; std::deque<Item> mStorage;] with the front of the deque
    at the head of the list. *)
Record Cabinet : Type := mkCabinet { mSize : Z; mStorage : list Item }.

(** [explicit Cabinet(int64_t size) : mSize(size) {}] *)
Definition Cabinet_new (size : Z) : Cabinet := mkCabinet (to_uint16 size) [].

(** Iterators are positions from the front; [end()] is the length. *)
Definition end_ (c : Cabinet) : nat := length (mStorage c).

(** [std::find(begin, end, item)]: the first position holding [item], or the
    length. *)
Fixpoint find_from (item : Item) (l : list Item) : nat :=
  match l with
  | [] => O
  | x :: l' => if x =? item then O else S (find_from item l')
  end.

Definition find (item : Item) (c : Cabinet) : nat := find_from item (mStorage c).

(** [mStorage.size() < mSize] *)
Definition hasSpace (c : Cabinet) : bool :=
  Z.of_nat (length (mStorage c)) <? mSize c.

(** [mStorage.empty()] *)
Definition empty (c : Cabinet) : bool :=
  match mStorage c with [] => true | _ :: _ => false end.

(** [mStorage.back()] followed by [mStorage.pop_back()]; undefined on an
    empty deque. *)
Definition back_and_pop (l : list Item) : option (Item * list Item) :=
  match l with
  | [] => None
  | x :: l' => Some (last l x, removelast l)
  end.

(** [Item addItem(Item item)] *)
Definition addItem (item : Item) (c : Cabinet) : option (Item * Cabinet) :=
  if hasSpace c then
    Some (kSentinelItem, mkCabinet (mSize c) (item :: mStorage c))
  else
    '(lastItem, rest) <- back_and_pop (mStorage c) ;;
    Some (lastItem, mkCabinet (mSize c) (item :: rest)).

(** [Item pop(const CabinetIter &item_it)], with its [assert(item_it != end())]. *)
Definition pop (item_it : nat) (c : Cabinet) : option (Item * Cabinet) :=
  match nth_error (mStorage c) item_it with
  | None => None
  | Some item =>
      Some (item, mkCabinet (mSize c)
                    (firstn item_it (mStorage c) ++ skipn (S item_it) (mStorage c)))
  end.

(** [Item pop_back()], with its [assert(!mStorage.empty())]. *)
Definition pop_back (c : Cabinet) : option (Item * Cabinet) :=
  '(lastItem, rest) <- back_and_pop (mStorage c) ;;
  Some (lastItem, mkCabinet (mSize c) rest).

(** ** WorkShop *)

Record WorkShop : Type := mkWorkShop {
  mOutside : Cabinet;
  mWorkbench : Cabinet;
  mCabinets : list Cabinet
}.

(** [explicit WorkShop(const std::vector<int64_t> &cabinetSizes)
       : mWorkbench(1), mOutside(kSentinelItem)] *)
Definition WorkShop_new (cabinetSizes : list Z) : WorkShop :=
  mkWorkShop (Cabinet_new kSentinelItem) (Cabinet_new 1)
             (map Cabinet_new cabinetSizes).

(** The [for (auto &cabinet: mCabinets)] loop of [putInCabinet]: the cabinets
    not yet visited, and the two locals [item] and [extraItem].  The second
    branch is the [else break]. *)
Fixpoint putInCabinet_loop (cabinets : list Cabinet) (item extraItem : Item)
  : option (list Cabinet * Item * Item) :=
  match cabinets with
  | [] => Some ([], item, extraItem)
  | cabinet :: rest =>
      '(extraItem', cabinet') <- addItem item cabinet ;;
      if negb (extraItem' =? kSentinelItem) then
        '(rest', item', extraItem'') <- putInCabinet_loop rest extraItem' extraItem' ;;
        Some (cabinet' :: rest', item', extraItem'')
      else Some (cabinet' :: rest, item, extraItem')
  end.

(** [void putInCabinet(Item item)] *)
Definition putInCabinet (item : Item) (ws : WorkShop) : option WorkShop :=
  '(cabinets', item', extraItem) <-
     putInCabinet_loop (mCabinets ws) item kSentinelItem ;;
  if negb (item' =? kSentinelItem) then
    '(_, outside') <- addItem extraItem (mOutside ws) ;;
    Some (mkWorkShop outside' (mWorkbench ws) cabinets')
  else Some (mkWorkShop (mOutside ws) (mWorkbench ws) cabinets').

(** The [for (int j = 0; j < mCabinets.size(); j++)] loop of [workOn]: the
    number [j + 1] of the first cabinet holding the item, with the item
    popped from it, or no number when the loop runs to its end. *)
Fixpoint workOn_loop (j : Z) (cabinets : list Cabinet) (current_item : Item)
  : option (option Z * list Cabinet) :=
  match cabinets with
  | [] => Some (None, [])
  | cabinet :: rest =>
      let cabinet_item_it := find current_item cabinet in
      if negb (Nat.eqb cabinet_item_it (end_ cabinet)) then
        '(_, cabinet') <- pop cabinet_item_it cabinet ;;
        Some (Some (j + 1), cabinet' :: rest)
      else
        '(found, rest') <- workOn_loop (j + 1) rest current_item ;;
        Some (found, cabinet :: rest')
  end.

(** The first statement of [workOn]: what lies on the workbench goes to the
    cabinets. *)
Definition drain (ws : WorkShop) : option WorkShop :=
  if negb (empty (mWorkbench ws)) then
    '(current_workbench_item, workbench') <- pop_back (mWorkbench ws) ;;
    putInCabinet current_workbench_item
      (mkWorkShop (mOutside ws) workbench' (mCabinets ws))
  else Some ws.

(** The rest of [workOn]: look for the item outside, then in the cabinets in
    order, and put it on the workbench.  The source calls
    [mWorkbench.addItem] inside the loop, just before [return Result(j + 1)];
    here the call follows [workOn_loop], which touches the cabinets only.
    [main] accepts at most 64 cabinets, so the [int] sum [j + 1] does not
    wrap. *)
Definition relocate (current_item : Item) (ws1 : WorkShop)
  : option (Result * WorkShop) :=
  let outside_item_it := find current_item (mOutside ws1) in
  if negb (Nat.eqb outside_item_it (end_ (mOutside ws1))) then
    '(_, outside') <- pop outside_item_it (mOutside ws1) ;;
    '(_, workbench') <- addItem current_item (mWorkbench ws1) ;;
    Some (Result_str "OUTSIDE"%string,
          mkWorkShop outside' workbench' (mCabinets ws1))
  else
    '(found, cabinets') <- workOn_loop 0 (mCabinets ws1) current_item ;;
    '(_, workbench') <- addItem current_item (mWorkbench ws1) ;;
    match found with
    | Some nr =>
        Some (Result_nr nr, mkWorkShop (mOutside ws1) workbench' cabinets')
    | None =>
        Some (Result_str "NEW"%string,
              mkWorkShop (mOutside ws1) workbench' cabinets')
    end.

(** [Result workOn(Item current_item)] *)
Definition workOn (current_item : Item) (ws : WorkShop)
  : option (Result * WorkShop) :=
  ws1 <- drain ws ;;
  relocate current_item ws1.

(** The loop of [main] over the items read, keeping every result and not
    only the last one. *)
Fixpoint run (ws : WorkShop) (items : list Item) : option (list Result * WorkShop) :=
  match items with
  | [] => Some ([], ws)
  | item :: items' =>
      '(res, ws') <- workOn item ws ;;
      '(ress, ws'') <- run ws' items' ;;
      Some (res :: ress, ws'')
  end.

(** The results of a whole input: cabinet sizes and items. *)
Definition process_all (cabinetSizes : list Z) (items : list Item)
  : option (list Result) :=
  '(ress, _) <- run (WorkShop_new cabinetSizes) items ;;
  Some ress.

(** ** Reading the input and printing the result *)

(** Standard input is the list of its lines; [getline] takes the first one
    and leaves an empty string once the lines are used up.  What the program
    writes is one line: [INPUT_ERROR] from [inputError], which ends the
    program at once, or the number or status text of the last result.
    [FAULT] stands for an assertion or an undefined operation in the
    workshop. *)
Inductive Output : Type :=
| INPUT_ERROR
| PRINT (text : Z + string)
| FAULT.

(** The value of a [char] seen as [unsigned char]. *)
Definition code (c : Ascii.ascii) : nat := Ascii.nat_of_ascii c.

(** [c == ' '] *)
Definition is_blank (c : Ascii.ascii) : bool := Nat.eqb (code c) 32.

(** [std::isdigit(c)]: the characters 0 to 9.  [main] passes a plain
    [char]; for a byte of 0x80 or more that is a negative value, for which
    the C library leaves [isdigit] undefined, and the answer is taken to be
    false. *)
Definition isdigit (c : Ascii.ascii) : bool :=
  andb (Nat.leb 48 (code c)) (Nat.leb (code c) 57).

(** [isspace], which [std::stoll] skips: space, tab, line feed, vertical
    tab, form feed and carriage return. *)
Definition isspace (c : Ascii.ascii) : bool :=
  orb (Nat.eqb (code c) 32) (andb (Nat.leb 9 (code c)) (Nat.leb (code c) 13)).

(** [valid_read] of [main]: every character of the first line is a space or
    a digit. *)
Definition valid_read (input : string) : bool :=
  forallb (fun c => orb (is_blank c) (isdigit c)) (list_ascii_of_string input).

(** [is_invalid_cabinet_size] of [main]. *)
Definition is_invalid_cabinet_size (size : Z) : bool :=
  orb (size <=? 0) (size >=? 1024).

(** The number written by a run of digits. *)
Definition digit_value (c : Ascii.ascii) : Z := Z.of_nat (code c) - 48.

Definition decimal (digits : list Ascii.ascii) : Z :=
  fold_left (fun acc c => 10 * acc + digit_value c) digits 0.

(** [std::numeric_limits<int>::max()] *)
Definition INT_MAX : Z := 2147483647.

(** The runs of digits of a line, in order: what the successive
    [iss >> cabinetSize] meet, in a line that holds digits and spaces
    only.  [cur] is the run being read. *)
Fixpoint tokens_from (cur chars : list Ascii.ascii) : list (list Ascii.ascii) :=
  match chars with
  | [] => match cur with [] => [] | _ :: _ => [cur] end
  | c :: chars' =>
      if isdigit c then tokens_from (cur ++ [c]) chars'
      else match cur with
           | [] => tokens_from [] chars'
           | _ :: _ => cur :: tokens_from [] chars'
           end
  end.

Definition tokens (input : string) : list (list Ascii.ascii) :=
  tokens_from [] (list_ascii_of_string input).

(** The loop [while (iss >> cabinetSize)] of [main].  The extraction fails,
    and the loop ends, at the end of the line and also at a number that does
    not fit an [int]; a number read is checked by
    [is_invalid_cabinet_size], and [None] is [inputError()]. *)
Fixpoint read_sizes (toks : list (list Ascii.ascii)) (cabinetSizes : list Z)
  : option (list Z) :=
  match toks with
  | [] => Some cabinetSizes
  | tok :: toks' =>
      let cabinetSize := decimal tok in
      if INT_MAX <? cabinetSize then Some cabinetSizes
      else if is_invalid_cabinet_size cabinetSize then None
      else read_sizes toks' (cabinetSizes ++ [cabinetSize])
  end.

Fixpoint drop_while (p : Ascii.ascii -> bool) (l : list Ascii.ascii) : list Ascii.ascii :=
  match l with
  | [] => []
  | c :: l' => if p c then drop_while p l' else l
  end.

Fixpoint take_while (p : Ascii.ascii -> bool) (l : list Ascii.ascii) : list Ascii.ascii :=
  match l with
  | [] => []
  | c :: l' => if p c then c :: take_while p l' else []
  end.

(** [std::stoll(input)]: leading white space, an optional sign, then digits;
    what follows the digits is ignored.  [None] is one of its two exceptions:
    [invalid_argument] without a digit, [out_of_range] outside [int64_t]. *)
Definition stoll (input : string) : option Z :=
  let chars := drop_while isspace (list_ascii_of_string input) in
  let '(negative, chars') :=
    match chars with
    | c :: rest =>
        if Nat.eqb (code c) 45 then (true, rest)
        else if Nat.eqb (code c) 43 then (false, rest)
        else (false, chars)
    | [] => (false, chars)
    end in
  match take_while isdigit chars' with
  | [] => None
  | digits =>
      let value := if negative then - decimal digits else decimal digits in
      if orb (value <? - 9223372036854775808) (kSentinelItem <? value) then None
      else Some value
  end.

(** [readInt()] on the next line; [None] is [inputError()]. *)
Definition readInt (lines : list string) : option Z * list string :=
  (stoll (hd EmptyString lines), tl lines).

(** [explicit Result() : cabinet_nr(kSentinelItem) {}] *)
Definition Result_default : Result := mkResult kSentinelItem EmptyString.

(** The loop [for (size_t i = 0; i < nrElements; i++)] of [main], with the
    number of turns still to go.  Without a line left [readInt] reads an
    empty string, which [stoll] refuses. *)
Fixpoint main_loop (lines : list string) (turns : Z) (workshop : WorkShop)
                   (res : Result) : Output :=
  if turns <=? 0 then PRINT (printed res)
  else
    match lines with
    | [] => INPUT_ERROR
    | line :: lines' =>
        match stoll line with
        | None => INPUT_ERROR
        | Some item =>
            match workOn item workshop with
            | None => FAULT
            | Some (res', workshop') =>
                main_loop lines' (turns - 1) workshop' res'
            end
        end
    end.

(** [int main()].  The comparison [i < nrElements] is made in [size_t], so
    a negative count stands for a count of 2^64 more. *)
Definition main (stdin : list string) : Output :=
  let input := hd EmptyString stdin in
  if negb (valid_read input) then INPUT_ERROR
  else
    match read_sizes (tokens input) [] with
    | None => INPUT_ERROR
    | Some cabinetSizes =>
        if 64 <? Z.of_nat (length cabinetSizes) then INPUT_ERROR
        else
          match readInt (tl stdin) with
          | (None, _) => INPUT_ERROR
          | (Some nrElements, lines) =>
              if nrElements =? 0 then INPUT_ERROR
              else main_loop lines (nrElements mod 18446744073709551616)
                             (WorkShop_new cabinetSizes) Result_default
          end
    end.

(** ** Sequences of operations on one cabinet *)

(** The three mutating members of [Cabinet]. *)
Inductive CabinetOp : Type :=
| OpAddItem (item : Item)
| OpPop (item_it : nat)
| OpPopBack.

Definition apply_op (op : CabinetOp) (c : Cabinet) : option Cabinet :=
  match op with
  | OpAddItem item => '(_, c') <- addItem item c ;; Some c'
  | OpPop item_it => '(_, c') <- pop item_it c ;; Some c'
  | OpPopBack => '(_, c') <- pop_back c ;; Some c'
  end.

(** The states a cabinet goes through from [c0], one operation at a time. *)
Inductive reachable (c0 : Cabinet) : Cabinet -> Prop :=
| reach_start : reachable c0 c0
| reach_step (c c' : Cabinet) (op : CabinetOp) :
    reachable c0 c -> apply_op op c = Some c' -> reachable c0 c'.

(** [addItem] of each item of a batch in turn, first item first. *)
Fixpoint addItems (batch : list Item) (c : Cabinet) : option Cabinet :=
  match batch with
  | [] => Some c
  | item :: batch' => '(_, c') <- addItem item c ;; addItems batch' c'
  end.

(** [pop_back] called [n] times in a row, with the items it returned, first
    call first. *)
Fixpoint pop_backs (n : nat) (c : Cabinet) : option (list Item * Cabinet) :=
  match n with
  | O => Some ([], c)
  | S n' =>
      '(item, c') <- pop_back c ;;
      '(items, c'') <- pop_backs n' c' ;;
      Some (item :: items, c'')
  end.

(** ** Well-formed states *)

(** A cabinet holds no more than its size, and its size is at least one. *)
Definition bounded (c : Cabinet) : Prop :=
  1 <= mSize c /\ Z.of_nat (length (mStorage c)) <= mSize c.

(** The states of a workshop built by [WorkShop_new] from sizes that [main]
    accepts: every cabinet is bounded and the workbench has size 1. *)
Record WF (ws : WorkShop) : Prop := mkWF {
  wf_outside : bounded (mOutside ws);
  wf_workbench : mSize (mWorkbench ws) = 1
                 /\ Z.of_nat (length (mStorage (mWorkbench ws))) <= 1;
  wf_cabinets : Forall bounded (mCabinets ws)
}.

(** [is_invalid_cabinet_size] of [main], negated. *)
Definition valid_cabinet_size (size : Z) : Prop := 0 < size < 1024.

(** No cabinet of the list holds the item. *)
Definition absent (item : Item) (cabinets : list Cabinet) : Prop :=
  Forall (fun c => ~ In item (mStorage c)) cabinets.

(** Where an item was and where everything is afterwards, for a workshop
    [ws1] whose workbench has been cleared: the item is taken from its first
    position outside; failing that, from its first position in the first
    cabinet holding it, reported by that cabinet's number counted from one;
    failing that, it is new.  In each case it ends alone on the workbench and
    nothing else moves. *)
Inductive relocated (item : Item) (ws1 : WorkShop) : Result -> WorkShop -> Prop :=
| from_outside (pre post : list Item) :
    mStorage (mOutside ws1) = pre ++ item :: post ->
    ~ In item pre ->
    relocated item ws1 OUTSIDE
      (mkWorkShop (mkCabinet (mSize (mOutside ws1)) (pre ++ post))
                  (mkCabinet 1 [item]) (mCabinets ws1))
| from_cabinet (before after : list Cabinet) (cab : Cabinet)
               (pre post : list Item) :
    ~ In item (mStorage (mOutside ws1)) ->
    mCabinets ws1 = before ++ cab :: after ->
    absent item before ->
    mStorage cab = pre ++ item :: post ->
    ~ In item pre ->
    relocated item ws1 (TIER (Z.of_nat (length before) + 1))
      (mkWorkShop (mOutside ws1) (mkCabinet 1 [item])
                  (before ++ mkCabinet (mSize cab) (pre ++ post) :: after))
| from_nowhere :
    ~ In item (mStorage (mOutside ws1)) ->
    absent item (mCabinets ws1) ->
    relocated item ws1 NEW
      (mkWorkShop (mOutside ws1) (mkCabinet 1 [item]) (mCabinets ws1)).

(** The items held by a row of cabinets. *)
Definition contents (cabinets : list Cabinet) : list Item :=
  concat (map mStorage cabinets).

(** Every item held anywhere in the workshop. *)
Definition stored (ws : WorkShop) : list Item :=
  mStorage (mOutside ws) ++ mStorage (mWorkbench ws)
  ++ contents (mCabinets ws).

(** How many times an item is held in a list of entries. *)
Definition copies (y : Item) (l : list Item) : nat := count_occ Z.eq_dec l y.

(** Every item seen so far, the sentinel apart, is held exactly once in the
    workshop, and no other item is held at all. *)
Definition kept (seen : list Item) (ws : WorkShop) : Prop :=
  forall y, y <> kSentinelItem ->
    (In y seen -> copies y (stored ws) = 1%nat)
    /\ (~ In y seen -> copies y (stored ws) = 0%nat).

(** The results a workshop with [n] cabinets can report: NEW, OUTSIDE, or
    the number of one of its cabinets, counted from one. *)
Definition provenance (n : nat) (res : Result) : Prop :=
  res = NEW \/ res = OUTSIDE \/ exists k, 1 <= k <= Z.of_nat n /\ res = TIER k.

(** Where an item is found again when exactly one other item was worked on
    in between: cabinet 1 if that cabinet has size 2 or more; otherwise
    cabinet 2, or outside if there is no second cabinet. *)
Definition recalled_from (cabinetSizes : list Z) : Result :=
  match cabinetSizes with
  | [] => NEW
  | size :: more =>
      if 2 <=? size then TIER 1
      else match more with [] => OUTSIDE | _ :: _ => TIER 2 end
  end.

(** A row of full cabinets after an item has been pushed through it: each
    cabinet takes the item carried to it at its front and gives its back
    item to the next one.  The second component is the item that leaves the
    last cabinet. *)
Fixpoint shifted (carry : Item) (cabinets : list Cabinet) : list Cabinet * Item :=
  match cabinets with
  | [] => ([], carry)
  | c :: rest =>
      let (rest', out) := shifted (last (mStorage c) carry) rest in
      (mkCabinet (mSize c) (carry :: removelast (mStorage c)) :: rest', out)
  end.

(** A cabinet without space that holds no sentinel entry. *)
Definition full (c : Cabinet) : Prop :=
  hasSpace c = false /\ ~ In kSentinelItem (mStorage c).

(** The items 1, 2, ..., n. *)
Definition first_items (n : nat) : list Item := map Z.of_nat (seq 1 n).

(** The states of a workshop with a single cabinet of size 1, once the
    workbench and the cabinet are both occupied. *)
Definition one_cabinet_state (outside : list Item) (bench cab : Item) : WorkShop :=
  mkWorkShop (mkCabinet 65535 outside) (mkCabinet 1 [bench]) [mkCabinet 1 [cab]].


(** * Properties *)

(** ** What [main] prints *)

Lemma printed_status : printed NEW = inr "NEW"%string
                       /\ printed OUTSIDE = inr "OUTSIDE"%string.
Proof. split; reflexivity. Qed.

Lemma printed_number (k : Z) :
  k <> kSentinelItem -> printed (TIER k) = inl k.
Proof.
  intros Hk. unfold printed, TIER, Result_nr. cbn [cabinet_nr].
  now destruct (Z.eqb_spec k kSentinelItem).
Qed.

(** ** Searching and removing *)

Lemma find_from_notin (item : Item) (l : list Item) :
  ~ In item l -> find_from item l = length l.
Proof.
  induction l as [|x l IH]; simpl; intros Hn; [reflexivity|].
  destruct (Z.eqb_spec x item) as [->|_].
  - exfalso. apply Hn. now left.
  - f_equal. apply IH. intros H. apply Hn. now right.
Qed.

Lemma find_from_in (item : Item) (l : list Item) :
  In item l ->
  exists pre post, l = pre ++ item :: post /\ ~ In item pre
                   /\ find_from item l = length pre.
Proof.
  induction l as [|x l IH]; simpl; intros Hin; [contradiction|].
  destruct (Z.eqb_spec x item) as [->|Hne].
  - exists [], l. repeat split. intros [].
  - destruct Hin as [->|Hin]; [congruence|].
    destruct (IH Hin) as (pre & post & -> & Hpre & Hf).
    exists (x :: pre), post. simpl. repeat split; [|now rewrite Hf].
    intros [H|H]; [congruence | contradiction].
Qed.

Lemma find_from_end (item : Item) (l : list Item) :
  Nat.eqb (find_from item l) (length l) = true <-> ~ In item l.
Proof.
  split.
  - intros H Hin. apply Nat.eqb_eq in H.
    destruct (find_from_in item l Hin) as (pre & post & -> & _ & Hf).
    rewrite Hf, length_app in H. simpl in H. lia.
  - intros H. apply Nat.eqb_eq. now apply find_from_notin.
Qed.

Lemma pop_split (c : Cabinet) (pre post : list Item) (x : Item) :
  mStorage c = pre ++ x :: post ->
  pop (length pre) c = Some (x, mkCabinet (mSize c) (pre ++ post)).
Proof.
  assert (Hskip : forall (p q : list Item) y, skipn (S (length p)) (p ++ y :: q) = q)
    by (induction p; simpl; auto).
  assert (Hfirst : forall (p q : list Item), firstn (length p) (p ++ q) = p)
    by (induction p; simpl; intros; f_equal; auto).
  assert (Hnth : forall (p q : list Item) y, nth_error (p ++ y :: q) (length p) = Some y)
    by (induction p; simpl; auto).
  intros H. unfold pop. rewrite H, Hnth, Hskip, Hfirst. reflexivity.
Qed.

Lemma back_and_pop_snoc (front : list Item) (x : Item) :
  back_and_pop (front ++ [x]) = Some (x, front).
Proof.
  unfold back_and_pop. destruct (front ++ [x]) eqn:E.
  - now destruct front.
  - rewrite <- E. now rewrite last_last, removelast_last.
Qed.

Lemma back_and_pop_nonempty (l : list Item) :
  l <> [] ->
  exists front x, l = front ++ [x] /\ back_and_pop l = Some (x, front).
Proof.
  intros H. destruct (exists_last H) as (front & x & ->).
  exists front, x. split; [reflexivity | apply back_and_pop_snoc].
Qed.

(** ** What [addItem] does *)

Lemma addItem_space (item : Item) (c : Cabinet) :
  Z.of_nat (length (mStorage c)) < mSize c ->
  addItem item c = Some (kSentinelItem, mkCabinet (mSize c) (item :: mStorage c)).
Proof.
  intros H. unfold addItem, hasSpace.
  destruct (Z.ltb_spec (Z.of_nat (length (mStorage c))) (mSize c)); [reflexivity | lia].
Qed.

Lemma addItem_full (item : Item) (c : Cabinet) :
  1 <= mSize c ->
  mSize c <= Z.of_nat (length (mStorage c)) ->
  exists front oldest,
    mStorage c = front ++ [oldest]
    /\ addItem item c = Some (oldest, mkCabinet (mSize c) (item :: front)).
Proof.
  intros H1 H. unfold addItem, hasSpace.
  destruct (Z.ltb_spec (Z.of_nat (length (mStorage c))) (mSize c)); [lia|].
  destruct (back_and_pop_nonempty (mStorage c)) as (front & x & E & Hb).
  - intros E. rewrite E in H. simpl in H. lia.
  - exists front, x. split; [exact E|]. now rewrite Hb.
Qed.

Lemma addItems_fits (batch : list Item) (c : Cabinet) :
  Z.of_nat (length batch) + Z.of_nat (length (mStorage c)) <= mSize c ->
  addItems batch c = Some (mkCabinet (mSize c) (rev batch ++ mStorage c)).
Proof.
  revert c. induction batch as [|x batch IH]; intros c H.
  - now destruct c.
  - cbn [length] in H. rewrite Nat2Z.inj_succ in H.
    cbn [addItems]. rewrite addItem_space by lia. cbn [bind].
    rewrite IH; cbn [mSize mStorage length]; [|rewrite Nat2Z.inj_succ; lia].
    cbn [rev]. now rewrite <- app_assoc.
Qed.

(** C8: in a cabinet of size at least one, [addItem] with fewer entries than
    the size puts the item at the front and returns the sentinel, the code's
    way of saying that nothing was evicted; with the cabinet full it removes
    and returns the back entry, the one inserted longest ago, and puts the
    item at the front.  In particular a cabinet of size 1024 filled by a batch
    of 1024 items evicts, on the next insertion, the first item of the batch. *)
Theorem addItem_insert_front
    (c : Cabinet) (item : Item) (batch : list Item) (extra : Item) :
  1 <= mSize c ->
  Z.of_nat (length batch) = 1024 ->
  (Z.of_nat (length (mStorage c)) < mSize c ->
     addItem item c
     = Some (kSentinelItem, mkCabinet (mSize c) (item :: mStorage c)))
  /\ (mSize c <= Z.of_nat (length (mStorage c)) ->
      exists front oldest,
        mStorage c = front ++ [oldest]
        /\ addItem item c = Some (oldest, mkCabinet (mSize c) (item :: front)))
  /\ (exists first others filled,
        batch = first :: others
        /\ addItems batch (Cabinet_new 1024) = Some filled
        /\ mStorage filled = rev others ++ [first]
        /\ addItem extra filled
           = Some (first, mkCabinet 1024 (extra :: rev others))).
Proof.
  intros Hsize Hlen. split; [|split].
  - apply addItem_space.
  - now apply addItem_full.
  - destruct batch as [|first others]; [discriminate|].
    exists first, others, (mkCabinet 1024 (rev others ++ [first])).
    split; [reflexivity|]. split; [|split; [reflexivity|]].
    + unfold Cabinet_new. change (to_uint16 1024) with 1024.
      rewrite addItems_fits; cbn [mSize mStorage length]; [|cbn [length] in Hlen; lia].
      now rewrite app_nil_r.
    + unfold addItem, hasSpace. cbn [mSize mStorage].
      rewrite length_app, length_rev. cbn [length] in *.
      destruct (Z.ltb_spec (Z.of_nat (length others + 1)) 1024); [lia|].
      now rewrite back_and_pop_snoc.
Qed.

Lemma addItem_insert_front_witness :
  exists first others filled,
    first_items 1024 = first :: others
    /\ addItems (first_items 1024) (Cabinet_new 1024) = Some filled
    /\ mStorage filled = rev others ++ [first]
    /\ addItem 1025 filled = Some (first, mkCabinet 1024 (1025 :: rev others)).
Proof.
  exact (proj2 (proj2 (addItem_insert_front (mkCabinet 1 [7]) 8
                         (first_items 1024) 1025
                         ltac:(simpl; lia) ltac:(reflexivity)))).
Defined.

(** ** The size bound of a cabinet *)

Lemma pop_length (item_it : nat) (c c' : Cabinet) (x : Item) :
  pop item_it c = Some (x, c') ->
  mSize c' = mSize c /\ S (length (mStorage c')) = length (mStorage c).
Proof.
  unfold pop. destruct (nth_error (mStorage c) item_it) eqn:E; [|discriminate].
  intros [= _ <-]. cbn [mSize mStorage]. split; [reflexivity|].
  assert (item_it < length (mStorage c))%nat
    by (apply nth_error_Some; congruence).
  change (S (length (firstn item_it (mStorage c) ++ skipn (S item_it) (mStorage c)))
          = length (mStorage c)).
  rewrite length_app, length_firstn, length_skipn. lia.
Qed.

Lemma pop_back_length (c c' : Cabinet) (x : Item) :
  pop_back c = Some (x, c') ->
  mSize c' = mSize c /\ S (length (mStorage c')) = length (mStorage c).
Proof.
  unfold pop_back. destruct (mStorage c) as [|y l] eqn:E; [discriminate|].
  destruct (back_and_pop_nonempty (y :: l)) as (front & z & E' & ->);
    [discriminate|].
  cbn [bind]. intros [= _ <-]. cbn [mSize mStorage]. split; [reflexivity|].
  rewrite E', length_app. simpl. lia.
Qed.

Lemma addItem_length (item : Item) (c c' : Cabinet) (x : Item) :
  addItem item c = Some (x, c') ->
  mSize c' = mSize c
  /\ (Z.of_nat (length (mStorage c)) <= mSize c ->
      Z.of_nat (length (mStorage c')) <= mSize c).
Proof.
  unfold addItem, hasSpace.
  destruct (Z.ltb_spec (Z.of_nat (length (mStorage c))) (mSize c)).
  - intros [= _ <-]. cbn [mSize mStorage length]. split; [reflexivity | lia].
  - destruct (mStorage c) as [|y l] eqn:E; [discriminate|].
    destruct (back_and_pop_nonempty (y :: l)) as (front & z & E' & ->);
      [discriminate|].
    cbn [bind]. intros [= _ <-]. cbn [mSize mStorage]. split; [reflexivity|].
    rewrite E', length_app. simpl. lia.
Qed.

Lemma reachable_within_mSize (c0 c : Cabinet) :
  reachable c0 c ->
  Z.of_nat (length (mStorage c0)) <= mSize c0 ->
  mSize c = mSize c0 /\ Z.of_nat (length (mStorage c)) <= mSize c0.
Proof.
  induction 1 as [|c c' op Hreach IH Hop]; intros H0; [split; [reflexivity | exact H0]|].
  destruct (IH H0) as [Hs Hl]. destruct op; cbn [apply_op] in Hop.
  - destruct (addItem item c) as [[x c1]|] eqn:E; [|discriminate].
    cbn [bind] in Hop. injection Hop as <-.
    destruct (addItem_length _ _ _ _ E) as [Hs' Hl']. split; [congruence|].
    rewrite <- Hs. apply Hl'. now rewrite Hs.
  - destruct (pop item_it c) as [[x c1]|] eqn:E; [|discriminate].
    cbn [bind] in Hop. injection Hop as <-.
    destruct (pop_length _ _ _ _ E) as [Hs' Hl']. split; [congruence | lia].
  - destruct (pop_back c) as [[x c1]|] eqn:E; [|discriminate].
    cbn [bind] in Hop. injection Hop as <-.
    destruct (pop_back_length _ _ _ E) as [Hs' Hl']. split; [congruence | lia].
Qed.

(** C9: a cabinet created with a size of at least one never holds more
    entries than that size, whatever sequence of [addItem], [pop] and
    [pop_back] it goes through; and for a size that fits the [uint16_t]
    field [addItem] is defined in each of those states. *)
Theorem cabinet_never_exceeds_size (size : Z) (c : Cabinet) :
  1 <= size ->
  reachable (Cabinet_new size) c ->
  Z.of_nat (length (mStorage c)) <= size
  /\ (size < 65536 ->
      forall item, exists evicted c',
        addItem item c = Some (evicted, c')
        /\ Z.of_nat (length (mStorage c')) <= size).
Proof.
  intros Hsize Hreach.
  destruct (reachable_within_mSize _ _ Hreach) as [Hs Hl];
    [cbn; unfold to_uint16; pose proof (Z.mod_pos_bound size 65536); lia|].
  cbn [Cabinet_new mSize] in Hs, Hl. unfold to_uint16 in Hs, Hl.
  assert (size mod 65536 <= size) by (apply Z.mod_le; lia).
  split; [lia|]. intros Hfit item.
  rewrite Z.mod_small in Hs, Hl by lia.
  destruct (Z.lt_ge_cases (Z.of_nat (length (mStorage c))) (mSize c)) as [Hlt|Hge].
  - rewrite (addItem_space _ _ Hlt). eexists _, _. split; [reflexivity|].
    cbn [mStorage length]. lia.
  - destruct (addItem_full item c) as (front & oldest & E & ->); [lia | lia |].
    eexists _, _. split; [reflexivity|]. cbn [mStorage].
    rewrite E, length_app in Hl. simpl in *. lia.
Qed.

Lemma cabinet_never_exceeds_size_witness :
  Z.of_nat (length (mStorage (mkCabinet 2 [3; 2]))) <= 2
  /\ (2 < 65536 ->
      forall item, exists evicted c',
        addItem item (mkCabinet 2 [3; 2]) = Some (evicted, c')
        /\ Z.of_nat (length (mStorage c')) <= 2).
Proof.
  apply (cabinet_never_exceeds_size 2 (mkCabinet 2 [3; 2])); [lia|].
  apply (reach_step _ (mkCabinet 2 [2; 1]) _ (OpAddItem 3)); [|reflexivity].
  apply (reach_step _ (mkCabinet 2 [1]) _ (OpAddItem 2)); [|reflexivity].
  apply (reach_step _ (mkCabinet 2 []) _ (OpAddItem 1)); [|reflexivity].
  apply reach_start.
Defined.

(** ** Well-formed workshops stay well formed *)

Lemma addItem_cases (item : Item) (c : Cabinet) :
  bounded c ->
  (Z.of_nat (length (mStorage c)) < mSize c
   /\ addItem item c
      = Some (kSentinelItem, mkCabinet (mSize c) (item :: mStorage c)))
  \/ (exists front oldest,
        mStorage c = front ++ [oldest]
        /\ mSize c = Z.of_nat (length (mStorage c))
        /\ addItem item c = Some (oldest, mkCabinet (mSize c) (item :: front))).
Proof.
  intros [H1 Hl].
  destruct (Z.lt_ge_cases (Z.of_nat (length (mStorage c))) (mSize c)) as [Hlt|Hge].
  - left. split; [exact Hlt | now apply addItem_space].
  - right. destruct (addItem_full item c H1 Hge) as (front & oldest & E & Ha).
    exists front, oldest. repeat split; [exact E | lia | exact Ha].
Qed.

Lemma addItem_bounded (item : Item) (c : Cabinet) :
  bounded c ->
  exists evicted c',
    addItem item c = Some (evicted, c')
    /\ bounded c'
    /\ mSize c' = mSize c
    /\ (exists rest, mStorage c' = item :: rest /\ incl rest (mStorage c))
    /\ (evicted = kSentinelItem \/ In evicted (mStorage c)).
Proof.
  intros Hb. pose proof Hb as [H1 Hl].
  destruct (addItem_cases item c Hb)
    as [[Hlt ->] | (front & oldest & E & Hs & ->)]; eexists _, _;
    (split; [reflexivity|]); cbn [mSize mStorage].
  - repeat split; cbn [mSize mStorage length]; [exact H1 | lia | | now left].
    exists (mStorage c). split; [reflexivity | apply incl_refl].
  - repeat split; cbn [mSize mStorage]; [exact H1 | | |].
    + rewrite E, length_app in Hl. cbn [length] in *. lia.
    + exists front. split; [reflexivity|]. rewrite E. now apply incl_appl, incl_refl.
    + right. rewrite E, in_app_iff. right. now left.
Qed.

Lemma in_contents (y : Item) (cabinets : list Cabinet) :
  In y (contents cabinets) <-> exists c, In c cabinets /\ In y (mStorage c).
Proof.
  unfold contents. rewrite in_concat. split.
  - intros (l & Hl & Hy). apply in_map_iff in Hl as (c & <- & Hc). now exists c.
  - intros (c & Hc & Hy). exists (mStorage c). split; [now apply in_map | exact Hy].
Qed.

Lemma contents_cons (c : Cabinet) (cabinets : list Cabinet) :
  contents (c :: cabinets) = mStorage c ++ contents cabinets.
Proof. reflexivity. Qed.

Lemma putInCabinet_loop_bounded (cabinets : list Cabinet) (item extraItem : Item) :
  Forall bounded cabinets ->
  exists cabinets' item' extraItem',
    putInCabinet_loop cabinets item extraItem = Some (cabinets', item', extraItem')
    /\ Forall bounded cabinets'
    /\ length cabinets' = length cabinets
    /\ (forall y, In y (contents cabinets') -> y = item \/ In y (contents cabinets))
    /\ (item' = item \/ In item' (contents cabinets))
    /\ (extraItem' = extraItem \/ extraItem' = kSentinelItem
        \/ In extraItem' (contents cabinets))
    /\ (forall c rest, cabinets = c :: rest ->
        exists c' rest' tl, cabinets' = c' :: rest' /\ mStorage c' = item :: tl).
Proof.
  intros Hb. revert item extraItem.
  induction Hb as [|c rest Hc Hrest IH]; intros item extraItem.
  - exists [], item, extraItem. cbn. repeat split; auto. discriminate.
  - cbn [putInCabinet_loop].
    destruct (addItem_bounded item c Hc)
      as (e & c' & -> & Hc' & _ & (tl & Etl & Htl) & He).
    cbn [bind]. destruct (Z.eqb_spec e kSentinelItem) as [->|Hne]; cbn [negb].
    + exists (c' :: rest), item, kSentinelItem. split; [reflexivity|].
      split; [now constructor|]. split; [reflexivity|]. rewrite !contents_cons.
      repeat split; auto.
      * intros y. rewrite !in_app_iff, Etl. cbn [In].
        intros [[->|Hy]|Hy]; auto.
      * intros c0 rest0 [= <- <-]. now exists c', rest, tl.
    + destruct (IH e e)
        as (rest' & item' & extra' & -> & Hb' & Hlen & Hin & Hi & Hx & _).
      cbn [bind]. exists (c' :: rest'), item', extra'. split; [reflexivity|].
      destruct He as [He|He]; [contradiction|].
      split; [now constructor|]. split; [cbn [length]; congruence|].
      rewrite !contents_cons.
      repeat split.
      * intros y. rewrite !in_app_iff, Etl. cbn [In].
        intros [[->|Hy]|Hy]; auto.
        destruct (Hin y Hy) as [->|Hy']; auto.
      * right. rewrite in_app_iff. destruct Hi as [->|Hi]; auto.
      * rewrite in_app_iff. destruct Hx as [->|[Hx|Hx]]; auto.
      * intros c0 rest0 [= <- <-]. now exists c', rest', tl.
Qed.

Lemma putInCabinet_spec (item : Item) (ws : WorkShop) :
  bounded (mOutside ws) ->
  Forall bounded (mCabinets ws) ->
  exists ws',
    putInCabinet item ws = Some ws'
    /\ mWorkbench ws' = mWorkbench ws
    /\ bounded (mOutside ws')
    /\ Forall bounded (mCabinets ws')
    /\ length (mCabinets ws') = length (mCabinets ws)
    /\ (forall y, In y (mStorage (mOutside ws')) ->
        y = kSentinelItem \/ In y (mStorage (mOutside ws))
        \/ In y (contents (mCabinets ws)))
    /\ (forall y, In y (contents (mCabinets ws')) ->
        y = item \/ In y (contents (mCabinets ws)))
    /\ (forall c rest, mCabinets ws = c :: rest ->
        exists c' rest' tl,
          mCabinets ws' = c' :: rest' /\ mStorage c' = item :: tl).
Proof.
  intros Hout Hcabs. unfold putInCabinet.
  destruct (putInCabinet_loop_bounded (mCabinets ws) item kSentinelItem Hcabs)
    as (cabs' & item' & extra' & -> & Hb' & Hlen & Hin & _ & Hx & Hhd).
  cbn [bind]. destruct (Z.eqb_spec item' kSentinelItem) as [_|_]; cbn [negb].
  - eexists. split; [reflexivity|]. cbn [mWorkbench mOutside mCabinets].
    repeat split; auto; apply Hout.
  - destruct (addItem_bounded extra' (mOutside ws) Hout)
      as (e & out' & -> & Hbo & _ & (tl & Etl & Htl) & _).
    cbn [bind]. eexists. split; [reflexivity|].
    cbn [mWorkbench mOutside mCabinets]. repeat split; auto; try apply Hbo.
    intros y. rewrite Etl. cbn [In]. intros [<-|Hy].
    + destruct Hx as [Hx|[Hx|Hx]]; auto.
    + right. left. now apply Htl.
Qed.

Lemma drain_cases (ws : WorkShop) :
  WF ws ->
  (mStorage (mWorkbench ws) = [] /\ drain ws = Some ws)
  \/ (exists w,
        mStorage (mWorkbench ws) = [w]
        /\ drain ws
           = putInCabinet w (mkWorkShop (mOutside ws) (mkCabinet 1 [])
                                        (mCabinets ws))).
Proof.
  intros [_ [Hs Hl] _]. unfold drain, empty, pop_back.
  destruct (mStorage (mWorkbench ws)) as [|w [|w' l]] eqn:E.
  - left. now split.
  - right. exists w. split; [reflexivity|]. cbn. now rewrite Hs.
  - cbn [length] in Hl. lia.
Qed.

Lemma drain_WF (ws : WorkShop) :
  WF ws ->
  exists ws1,
    drain ws = Some ws1
    /\ WF ws1
    /\ mStorage (mWorkbench ws1) = []
    /\ length (mCabinets ws1) = length (mCabinets ws)
    /\ (forall y, In y (stored ws1) -> y = kSentinelItem \/ In y (stored ws)).
Proof.
  intros Hwf. pose proof Hwf as [Hout [Hs Hl] Hcabs].
  destruct (drain_cases ws Hwf) as [[E ->] | (w & E & ->)].
  - exists ws. split; [reflexivity|]. split; [exact Hwf|]. split; [exact E | auto].
  - destruct (putInCabinet_spec w
                (mkWorkShop (mOutside ws) (mkCabinet 1 []) (mCabinets ws))
                Hout Hcabs)
      as (ws1 & -> & Hwb & Hbo & Hbc & Hlen & Ho & Hc & _).
    cbn [mWorkbench mOutside mCabinets] in *.
    exists ws1. split; [reflexivity|]. split; [|split; [|split; [exact Hlen|]]].
    + constructor; [exact Hbo | rewrite Hwb; cbn; lia | exact Hbc].
    + now rewrite Hwb.
    + intros y. unfold stored. rewrite Hwb, E. cbn [mStorage].
      rewrite !in_app_iff. cbn [In]. intros [Hy|[[]|Hy]].
      * destruct (Ho y Hy) as [->|[H|H]]; auto.
      * destruct (Hc y Hy) as [->|H]; auto.
Qed.

(** ** Looking for the item *)

Lemma workOn_loop_spec (j : Z) (cabinets : list Cabinet) (item : Item) :
  (absent item cabinets /\ workOn_loop j cabinets item = Some (None, cabinets))
  \/ (exists before cab after pre post,
        cabinets = before ++ cab :: after
        /\ absent item before
        /\ mStorage cab = pre ++ item :: post
        /\ ~ In item pre
        /\ workOn_loop j cabinets item
           = Some (Some (j + Z.of_nat (length before) + 1),
                   before ++ mkCabinet (mSize cab) (pre ++ post) :: after)).
Proof.
  revert j. induction cabinets as [|c rest IH]; intros j.
  - left. split; [constructor | reflexivity].
  - cbn [workOn_loop]. unfold find, end_.
    destruct (Nat.eqb (find_from item (mStorage c)) (length (mStorage c))) eqn:E;
      cbn [negb].
    + apply find_from_end in E.
      destruct (IH (j + 1)) as [[Habs ->] | (before & cab & after & pre & post
                                            & -> & Habs & Ecab & Hpre & ->)];
        cbn [bind].
      * left. split; [now constructor | reflexivity].
      * right. exists (c :: before), cab, after, pre, post.
        repeat split; auto; [now constructor|].
        cbn [length app]. do 3 f_equal. lia.
    + right. assert (Hin : In item (mStorage c)).
      { destruct (in_dec Z.eq_dec item (mStorage c)) as [H|H]; [exact H|].
        apply find_from_end in H. congruence. }
      destruct (find_from_in item _ Hin) as (pre & post & Ec & Hpre & ->).
      rewrite (pop_split c pre post item Ec). cbn [bind].
      exists [], c, rest, pre, post. repeat split; auto; [constructor|].
      cbn [length app]. do 3 f_equal. lia.
Qed.

Lemma relocate_spec (item : Item) (ws1 : WorkShop) :
  mSize (mWorkbench ws1) = 1 ->
  mStorage (mWorkbench ws1) = [] ->
  exists res ws',
    relocate item ws1 = Some (res, ws') /\ relocated item ws1 res ws'.
Proof.
  intros Hs He. unfold relocate, find, end_.
  assert (Hadd : addItem item (mWorkbench ws1)
                 = Some (kSentinelItem, mkCabinet 1 [item])).
  { rewrite addItem_space, Hs, He; [reflexivity|]. rewrite Hs, He. cbn. lia. }
  destruct (Nat.eqb (find_from item (mStorage (mOutside ws1)))
                    (length (mStorage (mOutside ws1)))) eqn:E; cbn [negb].
  - apply find_from_end in E.
    destruct (workOn_loop_spec 0 (mCabinets ws1) item)
      as [[Habs ->] | (before & cab & after & pre & post
                       & Ecabs & Habs & Ecab & Hpre & ->)];
      cbn [bind]; rewrite Hadd; cbn [bind]; eexists _, _;
      (split; [reflexivity|]).
    + now apply from_nowhere.
    + replace (0 + Z.of_nat (length before) + 1)
        with (Z.of_nat (length before) + 1) by lia.
      now apply from_cabinet.
  - assert (Hin : In item (mStorage (mOutside ws1))).
    { destruct (in_dec Z.eq_dec item (mStorage (mOutside ws1))) as [H|H];
        [exact H|]. apply find_from_end in H. congruence. }
    destruct (find_from_in item _ Hin) as (pre & post & Eo & Hpre & ->).
    rewrite (pop_split _ pre post item Eo). cbn [bind].
    rewrite Hadd. cbn [bind]. eexists _, _. split; [reflexivity|].
    now apply from_outside.
Qed.

(** C5: a call of [workOn] in a well-formed workshop first clears the
    workbench; then the item is looked for outside first and in the cabinets
    in ascending order after that, the first match winning; it is taken from
    where it was found and put, alone, on the workbench; and the result names
    that place: OUTSIDE, the cabinet's number counted from one, or NEW when
    it was nowhere. *)
Theorem workOn_locates (ws : WorkShop) (item : Item) :
  WF ws ->
  exists ws1 res ws',
    drain ws = Some ws1
    /\ mStorage (mWorkbench ws1) = []
    /\ workOn item ws = Some (res, ws')
    /\ relocated item ws1 res ws'.
Proof.
  intros Hwf.
  destruct (drain_WF ws Hwf) as (ws1 & Hd & [_ [Hs _] _] & He & _).
  destruct (relocate_spec item ws1 Hs He) as (res & ws' & Hr & Hrel).
  exists ws1, res, ws'. unfold workOn. rewrite Hd. cbn [bind]. auto.
Qed.

Lemma workOn_locates_witness :
  exists ws1 res ws',
    drain (mkWorkShop (mkCabinet 65535 [kSentinelItem]) (mkCabinet 1 [20])
                      [mkCabinet 1 [10]]) = Some ws1
    /\ mStorage (mWorkbench ws1) = []
    /\ workOn 10 (mkWorkShop (mkCabinet 65535 [kSentinelItem])
                             (mkCabinet 1 [20]) [mkCabinet 1 [10]])
       = Some (res, ws')
    /\ relocated 10 ws1 res ws'.
Proof.
  apply (workOn_locates
           (mkWorkShop (mkCabinet 65535 [kSentinelItem]) (mkCabinet 1 [20])
                       [mkCabinet 1 [10]]) 10).
  constructor; cbn [mOutside mWorkbench mCabinets].
  - split; cbn [mSize mStorage length]; lia.
  - split; cbn [mSize mStorage length]; [reflexivity | lia].
  - repeat constructor; cbn [mSize mStorage length]; lia.
Defined.

Lemma contents_app (l1 l2 : list Cabinet) :
  contents (l1 ++ l2) = contents l1 ++ contents l2.
Proof. unfold contents. now rewrite map_app, concat_app. Qed.

Lemma absent_contents (item : Item) (cabinets : list Cabinet) :
  absent item cabinets <-> ~ In item (contents cabinets).
Proof.
  unfold absent. rewrite Forall_forall, in_contents. split.
  - intros H (c & Hc & Hy). exact (H c Hc Hy).
  - intros H c Hc Hy. apply H. now exists c.
Qed.

Lemma relocated_WF (item : Item) (ws1 ws' : WorkShop) (res : Result) :
  WF ws1 ->
  relocated item ws1 res ws' ->
  WF ws'
  /\ mStorage (mWorkbench ws') = [item]
  /\ length (mCabinets ws') = length (mCabinets ws1)
  /\ (forall y, In y (stored ws') -> y = item \/ In y (stored ws1)).
Proof.
  intros [[Ho1 Hol] _ Hcabs] Hrel.
  destruct Hrel as [pre post Eo Hpre | before after cab pre post Ho Ec Hb Ecab Hpre
                   | Ho Hc]; unfold stored; cbn [mOutside mWorkbench mCabinets mStorage].
  - split; [|split; [reflexivity|split; [reflexivity|]]].
    + constructor; unfold bounded;
        cbn [mOutside mWorkbench mCabinets mSize mStorage length];
        [split; [exact Ho1|] | split; [reflexivity | lia] | exact Hcabs].
      rewrite Eo in Hol. rewrite length_app in *. cbn [length] in Hol. lia.
    + intros y. rewrite Eo, !in_app_iff. cbn [In]. intuition auto.
  - rewrite Ec in Hcabs. apply Forall_app in Hcabs as [Hbb Hca].
    inversion Hca as [|? ? [Hc1 Hcl] Haf]; subst.
    split; [|split; [reflexivity|split]].
    + constructor; unfold bounded;
        cbn [mOutside mWorkbench mCabinets mSize mStorage length];
        [split; assumption | split; [reflexivity | lia] |].
      apply Forall_app. split; [exact Hbb|]. constructor; [|exact Haf].
      split; cbn [mSize mStorage]; [exact Hc1|].
      rewrite Ecab in Hcl. rewrite length_app in *. cbn [length] in Hcl. lia.
    + rewrite Ec, !length_app. reflexivity.
    + intros y. rewrite Ec, !contents_app, !contents_cons. cbn [mStorage].
      rewrite Ecab. repeat (rewrite in_app_iff || cbn [In]). intuition auto.
  - split; [|split; [reflexivity|split; [reflexivity|]]].
    + constructor; unfold bounded;
        cbn [mOutside mWorkbench mCabinets mSize mStorage length];
        [split; assumption | split; [reflexivity | lia] | exact Hcabs].
    + intros y. rewrite !in_app_iff. cbn [In]. intuition auto.
Qed.

Lemma workOn_WF (item : Item) (ws : WorkShop) :
  WF ws ->
  exists res ws',
    workOn item ws = Some (res, ws')
    /\ WF ws'
    /\ mStorage (mWorkbench ws') = [item]
    /\ length (mCabinets ws') = length (mCabinets ws)
    /\ (forall y, In y (stored ws') ->
        y = item \/ y = kSentinelItem \/ In y (stored ws)).
Proof.
  intros Hwf.
  destruct (drain_WF ws Hwf) as (ws1 & Hd & Hwf1 & He & Hlen & Hst).
  destruct (relocate_spec item ws1 (proj1 (wf_workbench _ Hwf1)) He)
    as (res & ws' & Hr & Hrel).
  destruct (relocated_WF _ _ _ _ Hwf1 Hrel) as (Hwf' & Hwb & Hlen' & Hst').
  exists res, ws'. unfold workOn. rewrite Hd. cbn [bind].
  repeat split; auto; try apply Hwf'; [congruence|].
  intros y Hy. destruct (Hst' y Hy) as [->|H]; auto.
Qed.

Lemma run_WF (items : list Item) (ws : WorkShop) :
  WF ws ->
  exists ress ws',
    run ws items = Some (ress, ws')
    /\ WF ws'
    /\ length ress = length items
    /\ length (mCabinets ws') = length (mCabinets ws)
    /\ (forall y, In y (stored ws') ->
        In y items \/ y = kSentinelItem \/ In y (stored ws)).
Proof.
  revert ws. induction items as [|item items IH]; intros ws Hwf.
  - exists [], ws. cbn. repeat split; auto; apply Hwf.
  - destruct (workOn_WF item ws Hwf) as (res & ws1 & Hw & Hwf1 & _ & Hlen1 & Hst1).
    destruct (IH ws1 Hwf1) as (ress & ws' & Hr & Hwf' & Hlen & Hlen' & Hst).
    exists (res :: ress), ws'. cbn [run]. rewrite Hw. cbn [bind].
    rewrite Hr. cbn [bind length In].
    repeat split; auto; try apply Hwf'; [congruence|].
    intros y Hy. destruct (Hst y Hy) as [H|[->|H]]; auto.
    destruct (Hst1 y H) as [->|[->|H']]; auto.
Qed.

Lemma run_app (xs ys : list Item) (ws : WorkShop) :
  run ws (xs ++ ys)
  = '(r1, ws1) <- run ws xs ;;
    '(r2, ws2) <- run ws1 ys ;;
    Some (r1 ++ r2, ws2).
Proof.
  revert ws. induction xs as [|x xs IH]; intros ws; cbn [app run].
  - cbn [bind]. now destruct (run ws ys) as [[r2 ws2]|].
  - destruct (workOn x ws) as [[res ws1]|]; cbn [bind]; [|reflexivity].
    rewrite IH. destruct (run ws1 xs) as [[r1 ws2]|]; cbn [bind]; [|reflexivity].
    now destruct (run ws2 ys) as [[r2 ws3]|].
Qed.

Lemma WorkShop_new_WF (cabinetSizes : list Z) :
  Forall valid_cabinet_size cabinetSizes ->
  WF (WorkShop_new cabinetSizes) /\ stored (WorkShop_new cabinetSizes) = [].
Proof.
  intros Hv. split.
  - constructor; cbn [WorkShop_new mOutside mWorkbench mCabinets].
    + split; cbn [Cabinet_new mSize mStorage length];
        change (to_uint16 kSentinelItem) with 65535; lia.
    + split; cbn [Cabinet_new mSize mStorage length]; [reflexivity | lia].
    + apply Forall_map. eapply Forall_impl; [|exact Hv].
      intros size [H0 H1]. unfold bounded, Cabinet_new, to_uint16.
      cbn [mSize mStorage length]. rewrite Z.mod_small; lia.
  - unfold stored, contents. cbn [WorkShop_new mOutside mWorkbench mCabinets
                                    Cabinet_new mStorage app].
    induction cabinetSizes as [|size sizes IH]; [reflexivity|].
    cbn [map concat mStorage Cabinet_new app]. apply IH. now inversion Hv.
Qed.

(** ** The same item twice in a row *)

Lemma workOn_unseen (x : Item) (ws : WorkShop) :
  WF ws ->
  x <> kSentinelItem ->
  ~ In x (stored ws) ->
  exists ws1,
    workOn x ws = Some (NEW, ws1)
    /\ WF ws1
    /\ mStorage (mWorkbench ws1) = [x]
    /\ length (mCabinets ws1) = length (mCabinets ws)
    /\ ~ In x (mStorage (mOutside ws1))
    /\ ~ In x (contents (mCabinets ws1)).
Proof.
  intros Hwf Hx Hnew.
  destruct (drain_WF ws Hwf) as (wsd & Hd & Hwfd & He & Hlen & Hst).
  assert (Hnewd : ~ In x (stored wsd)).
  { intros H. destruct (Hst x H); [congruence | contradiction]. }
  destruct (relocate_spec x wsd (proj1 (wf_workbench _ Hwfd)) He)
    as (res & ws1 & Hr & Hrel).
  destruct (relocated_WF _ _ _ _ Hwfd Hrel) as (Hwf1 & Hwb & Hlen1 & _).
  unfold stored in Hnewd. rewrite !in_app_iff in Hnewd.
  unfold workOn. rewrite Hd. cbn [bind]. rewrite Hr.
  destruct Hrel as [pre post Eo Hpre | before after cab pre post Ho Ec Hb Ecab Hpre
                   | Ho Hc].
  - exfalso. apply Hnewd. left. rewrite Eo, in_app_iff. right. now left.
  - exfalso. apply Hnewd. right. right. rewrite Ec. apply in_contents.
    exists cab. split; [apply in_elt|]. rewrite Ecab, in_app_iff. right. now left.
  - eexists. split; [reflexivity|]. cbn [mOutside mCabinets] in *.
    split; [exact Hwf1|]. split; [exact Hwb|]. split; [congruence|].
    split; [exact Ho | now apply absent_contents].
Qed.

Lemma workOn_from_workbench (x : Item) (ws1 : WorkShop) :
  WF ws1 ->
  x <> kSentinelItem ->
  mStorage (mWorkbench ws1) = [x] ->
  mCabinets ws1 <> [] ->
  ~ In x (mStorage (mOutside ws1)) ->
  ~ In x (contents (mCabinets ws1)) ->
  exists ws2, workOn x ws1 = Some (TIER 1, ws2) /\ WF ws2.
Proof.
  intros Hwf Hx Hwb Hne Ho Hc. pose proof Hwf as [Hbo _ Hbc].
  destruct (drain_cases ws1 Hwf) as [[E _] | (w & E & Hd)]; [congruence|].
  rewrite Hwb in E. injection E as <-.
  destruct (putInCabinet_spec x
              (mkWorkShop (mOutside ws1) (mkCabinet 1 []) (mCabinets ws1))
              Hbo Hbc)
    as (wsd & Hp & Hwbd & Hbod & Hbcd & _ & Hod & _ & Hhd).
  cbn [mOutside mWorkbench mCabinets] in *.
  destruct (mCabinets ws1) as [|c rest] eqn:Ec; [congruence|].
  destruct (Hhd c rest eq_refl) as (c' & rest' & tl & Ecd & Ec').
  assert (Hwfd : WF wsd)
    by (constructor; [exact Hbod | rewrite Hwbd; cbn; lia | exact Hbcd]).
  destruct (relocate_spec x wsd) as (res & ws2 & Hr & Hrel);
    [now rewrite Hwbd | now rewrite Hwbd |].
  destruct (relocated_WF _ _ _ _ Hwfd Hrel) as (Hwf2 & _).
  exists ws2. split; [|exact Hwf2].
  unfold workOn. rewrite Hd, Hp. cbn [bind]. rewrite Hr.
  destruct Hrel as [pre post Eo Hpre | before after cab pre post Ho' Ecabs Hb Ecab Hpre
                   | Ho' Habs].
  - exfalso. destruct (Hod x) as [H|[H|H]]; auto.
    rewrite Eo, in_app_iff. right. now left.
  - destruct before as [|b before]; [reflexivity|]. exfalso.
    rewrite Ecd in Ecabs. injection Ecabs as <- _.
    inversion Hb as [|? ? Hnb _]; subst. apply Hnb. rewrite Ec'. now left.
  - exfalso. rewrite Ecd in Habs. inversion Habs as [|? ? Hnb _]; subst.
    apply Hnb. rewrite Ec'. now left.
Qed.

(** C6: with at least one cabinet, sizes that [main] accepts and any items
    processed before, an item that has not been seen and is not the sentinel
    gives NEW when processed and cabinet 1 when processed again at once. *)
Theorem process_twice_in_a_row
    (cabinetSizes : list Z) (earlier : list Item) (x : Item) :
  cabinetSizes <> [] ->
  Forall valid_cabinet_size cabinetSizes ->
  x <> kSentinelItem ->
  ~ In x earlier ->
  exists ress,
    process_all cabinetSizes earlier = Some ress
    /\ process_all cabinetSizes (earlier ++ [x; x])
       = Some (ress ++ [NEW; TIER 1]).
Proof.
  intros Hne Hv Hx Hnew.
  destruct (WorkShop_new_WF cabinetSizes Hv) as [Hwf0 Hst0].
  destruct (run_WF earlier _ Hwf0) as (ress & ws & Hrun & Hwf & _ & Hlen & Hst).
  assert (Hnone : ~ In x (stored ws)).
  { intros H. destruct (Hst x H) as [H'|[H'|H']]; auto.
    rewrite Hst0 in H'. contradiction. }
  destruct (workOn_unseen x ws Hwf Hx Hnone)
    as (ws1 & Hw1 & Hwf1 & Hwb1 & Hlen1 & Ho1 & Hc1).
  destruct (workOn_from_workbench x ws1 Hwf1 Hx Hwb1) as (ws2 & Hw2 & _); auto.
  { intros E. rewrite E in Hlen1. rewrite <- Hlen1 in Hlen.
    cbn [WorkShop_new mCabinets] in Hlen. rewrite length_map in Hlen.
    destruct cabinetSizes; [congruence | discriminate]. }
  exists ress. unfold process_all. rewrite run_app, Hrun. cbn [bind run].
  rewrite Hw1. cbn [bind]. rewrite Hw2. cbn [bind]. auto.
Qed.

Lemma process_twice_in_a_row_witness :
  exists ress,
    process_all [1; 2] [10; 20; 10] = Some ress
    /\ process_all [1; 2] ([10; 20; 10] ++ [30; 30])
       = Some (ress ++ [NEW; TIER 1]).
Proof.
  apply (process_twice_in_a_row [1; 2] [10; 20; 10] 30).
  - discriminate.
  - repeat constructor.
  - discriminate.
  - cbn [In]. intros [H|[H|[H|[]]]]; discriminate.
Defined.

(** ** The sentinel goes outside *)

Lemma addItem_hasSpace (item : Item) (c : Cabinet) :
  hasSpace c = true ->
  addItem item c = Some (kSentinelItem, mkCabinet (mSize c) (item :: mStorage c)).
Proof. intros H. unfold addItem. now rewrite H. Qed.














(** ** Worked inputs *)

(** C7: one cabinet of size 1 and the items 10, 20, 10, 30 give NEW, NEW,
    OUTSIDE, NEW. *)
Theorem scenario_one_cabinet :
  process_all [1] [10; 20; 10; 30] = Some [NEW; NEW; OUTSIDE; NEW].
Proof. reflexivity. Qed.

(** C10: one cabinet of size 1 and the items 1, 2 and then the sentinel
    value give NEW, NEW, OUTSIDE: after the first two calls Outside holds a
    sentinel entry, although the sentinel was never passed in, and the lookup
    of the third call matches it. *)
Theorem sentinel_item_found_outside :
  process_all [1] [1; 2; kSentinelItem] = Some [NEW; NEW; OUTSIDE]
  /\ exists ws ws',
       run (WorkShop_new [1]) [1; 2] = Some ([NEW; NEW], ws)
       /\ mStorage (mOutside ws) = [kSentinelItem]
       /\ workOn kSentinelItem ws = Some (OUTSIDE, ws').
Proof.
  split; [reflexivity|]. eexists _, _.
  split; [reflexivity|]. split; reflexivity.
Qed.

(** C3, as the code behaves: with no cabinets the item 5 gives NEW, but the
    next call pushes the sentinel outside in its place, so 5 is in no store
    afterwards and the call sequence 5, 6, 5 gives NEW three times. *)
Theorem zero_cabinets_item_lost :
  process_all [] [5] = Some [NEW]
  /\ process_all [] [5; 6; 5] = Some [NEW; NEW; NEW]
  /\ exists ress ws,
       run (WorkShop_new []) [5; 6] = Some (ress, ws)
       /\ stored ws = [kSentinelItem; 6].
Proof.
  split; [reflexivity|]. split; [reflexivity|].
  eexists _, _. split; reflexivity.
Qed.

(** ** Items are kept while Outside has room *)

(** The constructor stores the sentinel in a [uint16_t]: Outside has size
    65535. *)
Lemma mOutside_size (cabinetSizes : list Z) :
  mSize (mOutside (WorkShop_new cabinetSizes)) = 65535.
Proof. reflexivity. Qed.

Lemma copies_nil (y : Item) : copies y [] = 0%nat.
Proof. reflexivity. Qed.

Lemma copies_cons (y x : Item) (l : list Item) :
  copies y (x :: l) = ((if Z.eq_dec x y then 1 else 0) + copies y l)%nat.
Proof. unfold copies. cbn [count_occ]. now destruct (Z.eq_dec x y). Qed.

Lemma copies_app (y : Item) (l1 l2 : list Item) :
  copies y (l1 ++ l2) = (copies y l1 + copies y l2)%nat.
Proof. apply count_occ_app. Qed.

Lemma copies_In (y : Item) (l : list Item) : In y l <-> (0 < copies y l)%nat.
Proof. unfold copies. rewrite (count_occ_In Z.eq_dec). lia. Qed.

Ltac copies_norm :=
  repeat (rewrite copies_app || rewrite copies_cons || rewrite copies_nil
          || rewrite contents_cons || rewrite contents_app).

Ltac copies_norm_in H :=
  repeat (rewrite copies_app in H || rewrite copies_cons in H
          || rewrite copies_nil in H || rewrite contents_cons in H
          || rewrite contents_app in H).

Ltac copies_cases :=
  repeat match goal with
         | H : context [Z.eq_dec ?a ?b] |- _ => destruct (Z.eq_dec a b)
         | |- context [Z.eq_dec ?a ?b] => destruct (Z.eq_dec a b)
         end;
  try congruence; try lia.

Lemma addItem_copies (item : Item) (c c' : Cabinet) (e y : Item) :
  addItem item c = Some (e, c') ->
  y <> kSentinelItem ->
  copies y (item :: mStorage c) = copies y (e :: mStorage c').
Proof.
  unfold addItem. destruct (hasSpace c).
  - intros [= <- <-] Hy. cbn [mStorage]. copies_norm. copies_cases.
  - destruct (mStorage c) as [|x l] eqn:E; [discriminate|].
    destruct (back_and_pop_nonempty (x :: l)) as (front & oldest & -> & ->);
      [discriminate|].
    cbn [bind]. intros [= <- <-] Hy. cbn [mStorage]. copies_norm. copies_cases.
Qed.

Lemma putInCabinet_loop_copies
    (cabinets cabinets' : list Cabinet) (item extraItem item' extraItem' y : Item) :
  putInCabinet_loop cabinets item extraItem = Some (cabinets', item', extraItem') ->
  item <> kSentinelItem ->
  y <> kSentinelItem ->
  item' <> kSentinelItem
  /\ ((cabinets = [] /\ cabinets' = [] /\ item' = item /\ extraItem' = extraItem)
      \/ (cabinets <> []
          /\ copies y (item :: contents cabinets)
             = copies y (extraItem' :: contents cabinets'))).
Proof.
  revert cabinets' item extraItem item' extraItem'.
  induction cabinets as [|c rest IH];
    intros cabinets' item extraItem item' extraItem' Hloop Hitem Hy.
  - injection Hloop as <- <- <-. split; [exact Hitem | now left].
  - cbn [putInCabinet_loop] in Hloop.
    destruct (addItem item c) as [[e c1]|] eqn:Ea; [|discriminate].
    cbn [bind] in Hloop. pose proof (addItem_copies _ _ _ _ y Ea Hy) as Hc.
    destruct (Z.eqb_spec e kSentinelItem) as [->|Hne]; cbn [negb] in Hloop.
    + injection Hloop as <- <- <-. split; [exact Hitem | right].
      split; [discriminate|]. copies_norm. copies_norm_in Hc. copies_cases.
    + destruct (putInCabinet_loop rest e e) as [[[rest' i'] x']|] eqn:El;
        [|discriminate].
      cbn [bind] in Hloop. injection Hloop as <- <- <-.
      destruct (IH _ _ _ _ _ El Hne Hy) as [Hi' [(-> & -> & -> & ->) | [_ Hrest]]];
        (split; [assumption | right]); (split; [discriminate|]).
      * copies_norm. copies_norm_in Hc. copies_cases.
      * copies_norm. copies_norm_in Hc. copies_norm_in Hrest. copies_cases.
Qed.

Lemma putInCabinet_copies (item : Item) (ws ws' : WorkShop) (y : Item) :
  putInCabinet item ws = Some ws' ->
  mCabinets ws <> [] ->
  hasSpace (mOutside ws) = true ->
  item <> kSentinelItem ->
  y <> kSentinelItem ->
  copies y (mStorage (mOutside ws') ++ contents (mCabinets ws'))
  = copies y (item :: mStorage (mOutside ws) ++ contents (mCabinets ws))
  /\ mWorkbench ws' = mWorkbench ws
  /\ mSize (mOutside ws') = mSize (mOutside ws)
  /\ length (mStorage (mOutside ws')) = S (length (mStorage (mOutside ws))).
Proof.
  unfold putInCabinet. intros Hput Hne Hroom Hitem Hy.
  destruct (putInCabinet_loop (mCabinets ws) item kSentinelItem)
    as [[[cabs' item'] extra']|] eqn:El; [|discriminate].
  cbn [bind] in Hput.
  destruct (putInCabinet_loop_copies _ _ _ _ _ _ y El Hitem Hy)
    as [Hi' [(E & _) | [_ Hc]]]; [contradiction|].
  destruct (Z.eqb_spec item' kSentinelItem) as [|_]; [contradiction|].
  cbn [negb] in Hput. rewrite (addItem_hasSpace extra' _ Hroom) in Hput.
  cbn [bind] in Hput. injection Hput as <-.
  cbn [mOutside mWorkbench mCabinets mSize mStorage length].
  repeat split. copies_norm. copies_norm_in Hc. copies_cases.
Qed.

Lemma drain_copies (ws ws1 : WorkShop) (y : Item) :
  WF ws ->
  drain ws = Some ws1 ->
  mCabinets ws <> [] ->
  hasSpace (mOutside ws) = true ->
  ~ In kSentinelItem (mStorage (mWorkbench ws)) ->
  y <> kSentinelItem ->
  copies y (stored ws1) = copies y (stored ws)
  /\ mSize (mOutside ws1) = mSize (mOutside ws)
  /\ (length (mStorage (mOutside ws1)) <= S (length (mStorage (mOutside ws))))%nat.
Proof.
  intros Hwf Hd Hne Hroom Hbench Hy.
  destruct (drain_cases ws Hwf) as [[E Hd'] | (w & E & Hd')]; rewrite Hd' in Hd.
  - injection Hd as <-. repeat split. lia.
  - assert (Hw : w <> kSentinelItem)
      by (intros ->; apply Hbench; rewrite E; now left).
    destruct (putInCabinet_copies _ _ _ y Hd Hne Hroom Hw Hy)
      as (Hc & Hwb & Hs & Hl).
    cbn [mOutside mWorkbench mCabinets] in *.
    split; [|split; [exact Hs | lia]].
    unfold stored. rewrite Hwb, E. cbn [mStorage].
    copies_norm. copies_norm_in Hc. copies_cases.
Qed.

Lemma relocated_copies (item : Item) (ws1 ws' : WorkShop) (res : Result) :
  relocated item ws1 res ws' ->
  mStorage (mWorkbench ws1) = [] ->
  ((In item (stored ws1)
    /\ forall y, copies y (stored ws') = copies y (stored ws1))
   \/ (~ In item (stored ws1)
       /\ forall y, copies y (stored ws') = copies y (item :: stored ws1)))
  /\ mSize (mOutside ws') = mSize (mOutside ws1)
  /\ (length (mStorage (mOutside ws')) <= length (mStorage (mOutside ws1)))%nat.
Proof.
  intros Hrel Hwb. unfold stored.
  destruct Hrel as [pre post Eo Hpre | before after cab pre post Ho Ec Hb Ecab Hpre
                   | Ho Hc]; cbn [mOutside mWorkbench mCabinets mSize mStorage];
    rewrite Hwb.
  - split; [left | split; [reflexivity|]].
    + split; [rewrite Eo, !in_app_iff; left; right; now left|].
      intros y. rewrite Eo. copies_norm. copies_cases.
    + rewrite Eo, !length_app. cbn [length]. lia.
  - split; [left | split; [reflexivity | lia]].
    split.
    + rewrite Ec, contents_app, contents_cons, Ecab, !in_app_iff.
      right. right. right. left. right. now left.
    + intros y. rewrite Ec. copies_norm. cbn [mStorage]. rewrite Ecab.
      copies_norm. copies_cases.
  - split; [right | split; [reflexivity | lia]].
    split.
    + rewrite !in_app_iff. cbn [In]. apply absent_contents in Hc. tauto.
    + intros y. copies_norm. copies_cases.
Qed.

Lemma workOn_kept (item : Item) (ws : WorkShop) (seen : list Item) :
  WF ws ->
  mCabinets ws <> [] ->
  hasSpace (mOutside ws) = true ->
  ~ In kSentinelItem (mStorage (mWorkbench ws)) ->
  item <> kSentinelItem ->
  kept seen ws ->
  exists res ws',
    workOn item ws = Some (res, ws')
    /\ WF ws'
    /\ mCabinets ws' <> []
    /\ mStorage (mWorkbench ws') = [item]
    /\ kept (item :: seen) ws'
    /\ mSize (mOutside ws') = mSize (mOutside ws)
    /\ (length (mStorage (mOutside ws'))
        <= S (length (mStorage (mOutside ws))))%nat.
Proof.
  intros Hwf Hne Hroom Hbench Hitem Hkept.
  destruct (drain_WF ws Hwf) as (ws1 & Hd & Hwf1 & He & Hlen & _).
  destruct (relocate_spec item ws1 (proj1 (wf_workbench _ Hwf1)) He)
    as (res & ws' & Hr & Hrel).
  destruct (relocated_WF _ _ _ _ Hwf1 Hrel) as (Hwf' & Hwb' & Hlen' & _).
  destruct (relocated_copies _ _ _ _ Hrel He) as (Hcases & Hs' & Hl').
  assert (Hdrain : forall y, y <> kSentinelItem ->
                     copies y (stored ws1) = copies y (stored ws))
    by (intros y Hy; now apply (drain_copies ws ws1 y)).
  destruct (drain_copies ws ws1 item Hwf Hd Hne Hroom Hbench Hitem)
    as (_ & Hs1 & Hl1).
  exists res, ws'. unfold workOn. rewrite Hd. cbn [bind].
  split; [exact Hr|]. split; [exact Hwf'|].
  split; [intros E; rewrite E in Hlen'; cbn [length] in Hlen';
          rewrite <- Hlen' in Hlen;
          destruct (mCabinets ws); [congruence | discriminate]|].
  split; [exact Hwb'|]. split; [|split; [congruence | lia]].
  intros y Hy. specialize (Hdrain y Hy). destruct (Hkept y Hy) as [Hin Hout].
  destruct (Hkept item Hitem) as [Hin' Hout'].
  pose proof (drain_copies ws ws1 item Hwf Hd Hne Hroom Hbench Hitem) as (Hci & _).
  destruct Hcases as [[Hfound Hsame] | [Hnew Hadd]].
  - apply copies_In in Hfound. rewrite Hci in Hfound.
    assert (Hseen : In item seen).
    { destruct (in_dec Z.eq_dec item seen) as [H|H]; [exact H|].
      rewrite (Hout' H) in Hfound. lia. }
    rewrite Hsame, Hdrain. cbn [In]. split.
    + intros [<-|H]; auto.
    + intros H. apply Hout. auto.
  - assert (Hzero : copies item (stored ws1) = 0%nat).
    { destruct (copies item (stored ws1)) eqn:E; [reflexivity|].
      exfalso. apply Hnew, copies_In. lia. }
    rewrite Hci in Hzero.
    assert (Hunseen : ~ In item seen) by (intros H; rewrite (Hin' H) in Hzero; lia).
    rewrite Hadd, copies_cons, Hdrain. cbn [In]. split.
    + intros [<-|H].
      * rewrite Hzero. now destruct (Z.eq_dec item item).
      * rewrite (Hin H). destruct (Z.eq_dec item y) as [->|]; [contradiction | lia].
    + intros H. destruct (Z.eq_dec item y) as [->|]; [tauto|]. rewrite Hout; tauto.
Qed.

Lemma run_kept (items : list Item) (ws : WorkShop) (seen : list Item) :
  WF ws ->
  mCabinets ws <> [] ->
  Z.of_nat (length (mStorage (mOutside ws))) + Z.of_nat (length items)
  <= mSize (mOutside ws) ->
  ~ In kSentinelItem (mStorage (mWorkbench ws)) ->
  ~ In kSentinelItem items ->
  kept seen ws ->
  exists ress ws',
    run ws items = Some (ress, ws')
    /\ forall y, y <> kSentinelItem ->
         (In y (items ++ seen) -> copies y (stored ws') = 1%nat)
         /\ (~ In y (items ++ seen) -> copies y (stored ws') = 0%nat).
Proof.
  revert ws seen. induction items as [|item items IH];
    intros ws seen Hwf Hne Hroom Hbench Hvalid Hkept.
  - exists [], ws. split; [reflexivity | exact Hkept].
  - cbn [length] in Hroom. rewrite Nat2Z.inj_succ in Hroom.
    assert (Hitem : item <> kSentinelItem) by (intros ->; apply Hvalid; now left).
    destruct (workOn_kept item ws seen Hwf Hne) as
      (res & ws1 & Hw & Hwf1 & Hne1 & Hwb1 & Hkept1 & Hs1 & Hl1); auto.
    { unfold hasSpace. apply Z.ltb_lt. lia. }
    destruct (IH ws1 (item :: seen)) as (ress & ws' & Hrun & Hk'); auto.
    { rewrite Hs1. lia. }
    { rewrite Hwb1. intros [H|[]]. congruence. }
    { intros H. apply Hvalid. now right. }
    exists (res :: ress), ws'. cbn [run]. rewrite Hw. cbn [bind].
    rewrite Hrun. cbn [bind]. split; [reflexivity|].
    intros y Hy. destruct (Hk' y Hy) as [H1 H0].
    assert (Hiff : In y ((item :: items) ++ seen) <-> In y (items ++ item :: seen))
      by (cbn [app In]; rewrite !in_app_iff; cbn [In]; tauto).
    split; intros H; [apply H1 | apply H0]; tauto.
Qed.

(** Apart from the case without cabinets, Outside running full is the only
    way to lose an item: with at least one cabinet, sizes that [main]
    accepts and at most 65535 items, none the sentinel, every item passed in
    is held exactly once after the run, and nothing else is held but
    sentinel entries. *)
Lemma items_kept_while_outside_has_room
    (cabinetSizes : list Z) (items : list Item) :
  cabinetSizes <> [] ->
  Forall valid_cabinet_size cabinetSizes ->
  ~ In kSentinelItem items ->
  Z.of_nat (length items) <= 65535 ->
  exists ress ws,
    run (WorkShop_new cabinetSizes) items = Some (ress, ws) /\ kept items ws.
Proof.
  intros Hne Hv Hvalid Hlen.
  destruct (WorkShop_new_WF cabinetSizes Hv) as [Hwf Hst].
  assert (Hcabs : mCabinets (WorkShop_new cabinetSizes) <> [])
    by (cbn [WorkShop_new mCabinets]; now destruct cabinetSizes).
  assert (Hroom : Z.of_nat (length (mStorage (mOutside (WorkShop_new cabinetSizes))))
                  + Z.of_nat (length items)
                  <= mSize (mOutside (WorkShop_new cabinetSizes)))
    by (rewrite mOutside_size; cbn [WorkShop_new mOutside Cabinet_new mStorage length];
        lia).
  assert (Hk0 : kept [] (WorkShop_new cabinetSizes))
    by (intros y _; rewrite Hst; now split).
  destruct (run_kept items _ [] Hwf Hcabs Hroom (fun H => H) Hvalid Hk0)
    as (ress & ws & Hrun & Hk).
  exists ress, ws. split; [exact Hrun|]. intros y Hy.
  rewrite <- (app_nil_r items) at 1 2. now apply Hk.
Qed.

(** ** The size of Outside *)

Lemma in_removelast (y : Item) (l : list Item) :
  In y (removelast l) -> In y l.
Proof.
  induction l as [|a [|b l] IH]; cbn [removelast]; [auto | intros [] |].
  intros [->|H]; [now left | right; now apply IH].
Qed.

Lemma one_cabinet_step (outside : list Item) (bench cab x : Item) :
  cab <> kSentinelItem ->
  x <> bench ->
  ~ In x (cab :: outside) ->
  workOn x (one_cabinet_state outside bench cab)
  = Some (NEW,
          one_cabinet_state
            (cab :: (if Z.of_nat (length outside) <? 65535 then outside
                     else removelast outside))
            x bench).
Proof.
  intros Hcab Hbench Hnot.
  unfold workOn, drain, one_cabinet_state, empty, pop_back.
  cbn [mWorkbench mStorage negb back_and_pop last removelast bind mOutside
       mCabinets mSize].
  unfold putInCabinet. cbn [mCabinets putInCabinet_loop].
  unfold addItem at 1, hasSpace. cbn [mStorage mSize length Z.of_nat].
  change (Z.pos (Pos.of_succ_nat 0) <? 1) with false.
  cbn [back_and_pop last removelast bind].
  destruct (Z.eqb_spec cab kSentinelItem) as [|_]; [contradiction|].
  cbn [negb bind]. destruct (Z.eqb_spec cab kSentinelItem) as [|_]; [contradiction|].
  cbn [negb mOutside mWorkbench].
  assert (Hadd : exists outside',
             addItem cab (mkCabinet 65535 outside)
             = Some (outside', mkCabinet 65535
                      (cab :: (if Z.of_nat (length outside) <? 65535 then outside
                               else removelast outside)))).
  { unfold addItem, hasSpace. cbn [mStorage mSize].
    destruct (Z.ltb_spec (Z.of_nat (length outside)) 65535) as [Hlt|Hge].
    - now eexists.
    - destruct (back_and_pop_nonempty outside) as (front & oldest & -> & ->).
      + intros ->. cbn in Hge. lia.
      + cbn [bind]. rewrite removelast_last. now eexists. }
  destruct Hadd as (e & ->). cbn [bind].
  unfold relocate, find, end_. cbn [mOutside mStorage mCabinets mWorkbench].
  assert (Hno : ~ In x (cab :: (if Z.of_nat (length outside) <? 65535
                                then outside else removelast outside))).
  { intros [H|H]; apply Hnot; [now left | right].
    destruct (Z.of_nat (length outside) <? 65535); [exact H|].
    apply in_removelast. exact H. }
  rewrite (proj2 (find_from_end x _) Hno). cbn [negb workOn_loop].
  unfold find, end_. cbn [mStorage find_from length].
  destruct (Z.eqb_spec bench x) as [|_]; [congruence|].
  cbn [Nat.eqb negb bind]. reflexivity.
Qed.

Lemma first_items_S (n : nat) :
  first_items (S n) = first_items n ++ [Z.of_nat (S n)].
Proof. unfold first_items. now rewrite seq_S, map_app. Qed.

Lemma length_first_items (n : nat) : length (first_items n) = n.
Proof. unfold first_items. now rewrite length_map, length_seq. Qed.

Lemma in_map_seq (y : Z) (a n : nat) :
  In y (map Z.of_nat (seq a n)) <-> Z.of_nat a <= y < Z.of_nat a + Z.of_nat n.
Proof.
  rewrite in_map_iff. split.
  - intros (i & <- & Hi). apply in_seq in Hi. lia.
  - intros H. exists (Z.to_nat y). split; [lia|]. apply in_seq. lia.
Qed.

Lemma in_first_items (y : Z) (n : nat) :
  In y (first_items n) <-> 1 <= y <= Z.of_nat n.
Proof. unfold first_items. rewrite in_map_seq. lia. Qed.

(** With one cabinet of size 1 every new item pushes the item before the
    previous one outside, behind the sentinel entry of the second call. *)
Lemma run_first_items (k : nat) :
  (1 <= k)%nat ->
  Z.of_nat k + 1 <= 65535 ->
  run (WorkShop_new [1]) (first_items (k + 2))
  = Some (repeat NEW (k + 2),
          one_cabinet_state (rev (first_items k) ++ [kSentinelItem])
                            (Z.of_nat (k + 2)) (Z.of_nat (k + 1))).
Proof.
  induction k as [|k IH]; intros Hk Hfit; [lia|].
  destruct k as [|k]; [reflexivity|].
  replace (S (S k) + 2)%nat with (S (S k + 2)) by lia.
  rewrite first_items_S, run_app, IH by lia. cbn [bind run].
  rewrite one_cabinet_step.
  - cbn [bind]. f_equal. f_equal.
    + rewrite <- repeat_cons. reflexivity.
    + rewrite length_app, length_rev, length_first_items. cbn [length].
      destruct (Z.ltb_spec (Z.of_nat (S k + 1)) 65535); [|lia].
      rewrite (first_items_S (S k)), rev_unit.
      replace (S k + 1)%nat with (S (S k)) by lia.
      replace (S (S k + 2))%nat with (S (S k) + 2)%nat by lia.
      replace (S k + 2)%nat with (S (S k) + 1)%nat by lia. reflexivity.
  - unfold kSentinelItem. lia.
  - lia.
  - cbn [In]. rewrite in_app_iff, <- in_rev, in_first_items. cbn [In].
    unfold kSentinelItem. lia.
Qed.

Lemma first_items_head (n : nat) :
  first_items (S n) = 1 :: map Z.of_nat (seq 2 n).
Proof. reflexivity. Qed.

Lemma first_items_valid (n : nat) :
  Z.of_nat n < kSentinelItem ->
  NoDup (first_items n) /\ ~ In kSentinelItem (first_items n).
Proof.
  intros Hn. split.
  - apply Finite.Injective_map_NoDup;
      [intros a b; apply Nat2Z.inj | apply seq_NoDup].
  - rewrite in_first_items. lia.
Qed.

Lemma run_past_full (k : nat) :
  Z.of_nat k = 65534 ->
  run (WorkShop_new [1]) (first_items (S (k + 2)))
  = Some (repeat NEW (S (k + 2)),
          one_cabinet_state (rev (first_items (S k))) 65537 65536).
Proof.
  intros Hk.
  rewrite first_items_S, run_app, run_first_items by lia. cbn [bind run].
  rewrite one_cabinet_step.
  - cbn [bind]. f_equal. f_equal; [rewrite <- repeat_cons; reflexivity|].
    rewrite length_app, length_rev, length_first_items. cbn [length].
    destruct (Z.ltb_spec (Z.of_nat (k + 1)) 65535); [lia|].
    rewrite removelast_last, first_items_S, rev_unit.
    replace (Z.of_nat (S (k + 2))) with 65537 by lia.
    replace (Z.of_nat (k + 2)) with 65536 by lia.
    replace (Z.of_nat (k + 1)) with (Z.of_nat (S k)) by lia.
    reflexivity.
  - unfold kSentinelItem. lia.
  - lia.
  - cbn [In]. rewrite in_app_iff, <- in_rev, in_first_items. cbn [In].
    unfold kSentinelItem. lia.
Qed.

Lemma run_dropping (k : nat) :
  Z.of_nat k = 65534 ->
  run (WorkShop_new [1]) (first_items (S (S (k + 2))))
  = Some (repeat NEW (S (S (k + 2))),
          one_cabinet_state (65536 :: rev (map Z.of_nat (seq 2 k))) 65538 65537).
Proof.
  intros Hk.
  rewrite first_items_S, run_app, run_past_full by lia. cbn [bind run].
  rewrite one_cabinet_step.
  - cbn [bind]. f_equal. f_equal; [rewrite <- repeat_cons; reflexivity|].
    rewrite length_rev, length_first_items.
    destruct (Z.ltb_spec (Z.of_nat (S k)) 65535); [lia|].
    rewrite first_items_head. cbn [rev]. rewrite removelast_last.
    replace (Z.of_nat (S (S (k + 2)))) with 65538 by lia.
    reflexivity.
  - discriminate.
  - lia.
  - cbn [In]. rewrite <- in_rev, in_first_items. lia.
Qed.

Lemma count_65534 : Z.of_nat (Z.to_nat 65534) = 65534.
Proof. apply Z2Nat.id. discriminate. Qed.

Lemma count_65537 : Z.to_nat 65537 = S (Z.to_nat 65534 + 2).
Proof. lia. Qed.

Lemma count_65538 : Z.to_nat 65538 = S (S (Z.to_nat 65534 + 2)).
Proof. lia. Qed.

(** C2, as the code behaves: Outside is a cabinet of size 65535, the sentinel
    cut down to 16 bits.  With one cabinet of size 1, after the items 1 to
    65537 Outside holds 65535 entries, item 1 at the back; the next
    [addItem] on it removes and returns item 1. *)
Theorem outside_evicts_when_full :
  exists ress ws,
    run (WorkShop_new [1]) (first_items (Z.to_nat 65537)) = Some (ress, ws)
    /\ mSize (mOutside ws) = 65535
    /\ Z.of_nat (length (mStorage (mOutside ws))) = 65535
    /\ In 1 (mStorage (mOutside ws))
    /\ forall item, exists rest,
         addItem item (mOutside ws) = Some (1, mkCabinet 65535 (item :: rest))
         /\ ~ In 1 rest.
Proof.
  rewrite count_65537.
  eexists _, _. split; [exact (run_past_full _ count_65534)|].
  cbn [one_cabinet_state mOutside mSize mStorage].
  generalize (Z.to_nat 65534), count_65534. intros k Hk.
  rewrite first_items_head. cbn [rev].
  split; [reflexivity|]. split; [|split].
  - rewrite length_app, length_rev, length_map, length_seq. cbn [length]. lia.
  - rewrite in_app_iff. right. now left.
  - intros item. exists (rev (map Z.of_nat (seq 2 k))). split.
    + unfold addItem, hasSpace. cbn [mSize mStorage].
      rewrite length_app, length_rev, length_map, length_seq. cbn [length].
      destruct (Z.ltb_spec (Z.of_nat (k + 1)) 65535); [lia|].
      now rewrite back_and_pop_snoc.
    + rewrite <- in_rev, in_map_seq. lia.
Qed.

(** C1, as the code behaves: with one cabinet of size 1 and the 65538
    distinct items 1 to 65538, none of them the sentinel, item 1 is in no
    store after the last call: the full Outside dropped it. *)
Theorem item_dropped_from_full_outside :
  exists ress ws,
    run (WorkShop_new [1]) (first_items (Z.to_nat 65538)) = Some (ress, ws)
    /\ NoDup (first_items (Z.to_nat 65538))
    /\ ~ In kSentinelItem (first_items (Z.to_nat 65538))
    /\ In 1 (first_items (Z.to_nat 65538))
    /\ ~ In 1 (stored ws).
Proof.
  rewrite count_65538.
  eexists _, _. split; [exact (run_dropping _ count_65534)|].
  generalize (Z.to_nat 65534), count_65534. intros k Hk.
  destruct (first_items_valid (S (S (k + 2)))) as [Hnd Hns];
    [unfold kSentinelItem; lia|].
  split; [exact Hnd|]. split; [exact Hns|].
  split; [apply in_first_items; lia|].
  unfold stored, contents.
  cbn [one_cabinet_state mOutside mWorkbench mCabinets mStorage map concat].
  rewrite !in_app_iff. cbn [In]. rewrite <- in_rev, in_map_seq. lia.
Qed.

(** * Further properties of the cabinets *)

(** X1: in a cabinet of size at least one, an item just added is what
    [find] meets first: [find] returns the front position, which is not
    [end()], and [pop] at that position gives the item back. *)
Theorem find_after_addItem (item : Item) (c : Cabinet) :
  bounded c ->
  exists evicted c',
    addItem item c = Some (evicted, c')
    /\ find item c' = O
    /\ find item c' <> end_ c'
    /\ pop (find item c') c'
       = Some (item, mkCabinet (mSize c) (tl (mStorage c'))).
Proof.
  intros Hb.
  destruct (addItem_bounded item c Hb)
    as (e & c' & Ha & _ & Hs & (rest & Erest & _) & _).
  exists e, c'. split; [exact Ha|].
  assert (Hf : find item c' = O)
    by (unfold find; rewrite Erest; cbn [find_from]; now rewrite Z.eqb_refl).
  split; [exact Hf|]. rewrite Hf. unfold end_, pop. rewrite Erest, Hs.
  cbn [length nth_error firstn skipn app tl]. split; [discriminate | reflexivity].
Qed.

Lemma find_after_addItem_witness :
  exists evicted c',
    addItem 7 (mkCabinet 2 [5; 3]) = Some (evicted, c')
    /\ find 7 c' = O
    /\ find 7 c' <> end_ c'
    /\ pop (find 7 c') c' = Some (7, mkCabinet 2 (tl (mStorage c'))).
Proof.
  apply (find_after_addItem 7 (mkCabinet 2 [5; 3])).
  split; cbn [mSize mStorage length]; lia.
Defined.

(** X2: [find] and [pop] together.  For an item the cabinet does not hold,
    [find] returns [end()] and [pop] there trips its assertion.  For an item
    it holds, [pop] at the position found returns that very item and removes
    its first occurrence only: everything before and after stays in order. *)
Theorem pop_at_find (item : Item) (c : Cabinet) :
  (~ In item (mStorage c) ->
   find item c = end_ c /\ pop (find item c) c = None)
  /\ (In item (mStorage c) ->
      exists pre post,
        mStorage c = pre ++ item :: post
        /\ ~ In item pre
        /\ find item c = length pre
        /\ pop (find item c) c = Some (item, mkCabinet (mSize c) (pre ++ post))).
Proof.
  split.
  - intros Hn. unfold find, end_, pop. rewrite (find_from_notin _ _ Hn).
    split; [reflexivity|].
    now rewrite (proj2 (nth_error_None (mStorage c) (length (mStorage c)))).
  - intros Hin. destruct (find_from_in item _ Hin) as (pre & post & E & Hpre & Hf).
    exists pre, post. unfold find. rewrite Hf.
    repeat split; auto. now apply pop_split.
Qed.

Lemma pop_backs_rev (batch rest : list Item) (size : Z) :
  pop_backs (length batch) (mkCabinet size (rest ++ rev batch))
  = Some (batch, mkCabinet size rest).
Proof.
  revert rest. induction batch as [|x batch IH]; intros rest; [now rewrite app_nil_r|].
  cbn [length pop_backs rev]. unfold pop_back. cbn [mStorage mSize].
  rewrite app_assoc, back_and_pop_snoc. cbn [bind].
  rewrite IH. reflexivity.
Qed.

(** X3: a cabinet is a queue.  Items added one after the other to a new
    cabinet that is large enough come back from [pop_back] in the order they
    were added, and after the last one the cabinet is empty again, where
    [pop_back] trips its assertion. *)
Theorem pop_back_first_in_first_out (size : Z) (batch : list Item) :
  Z.of_nat (length batch) <= size < 65536 ->
  exists filled,
    addItems batch (Cabinet_new size) = Some filled
    /\ pop_backs (length batch) filled = Some (batch, Cabinet_new size)
    /\ pop_back (Cabinet_new size) = None.
Proof.
  intros Hsize.
  assert (Hs : to_uint16 size = size) by (unfold to_uint16; apply Z.mod_small; lia).
  exists (mkCabinet size (rev batch)). unfold Cabinet_new. rewrite Hs.
  split; [|split; [|reflexivity]].
  - rewrite addItems_fits; cbn [mSize mStorage length]; [|lia].
    now rewrite app_nil_r.
  - apply (pop_backs_rev batch [] size).
Qed.

Lemma pop_back_first_in_first_out_witness :
  exists filled,
    addItems [4; 5; 6] (Cabinet_new 3) = Some filled
    /\ pop_backs (length [4; 5; 6]) filled = Some ([4; 5; 6], Cabinet_new 3)
    /\ pop_back (Cabinet_new 3) = None.
Proof.
  apply (pop_back_first_in_first_out 3 [4; 5; 6]). cbn [length]. lia.
Defined.

(** X4: the size of a cabinet is kept in 16 bits.  A cabinet created with
    size 0, 65536 or any other multiple of 65536 has size 0: it never has
    space, and [addItem] on it reads the back of an empty deque. *)
Theorem cabinet_of_wrapped_size (size : Z) (item : Item) :
  size mod 65536 = 0 ->
  mSize (Cabinet_new size) = 0
  /\ hasSpace (Cabinet_new size) = false
  /\ addItem item (Cabinet_new size) = None.
Proof.
  intros H. unfold addItem, hasSpace, Cabinet_new, to_uint16.
  cbn [mSize mStorage length]. rewrite H. repeat split.
Qed.

Lemma cabinet_of_wrapped_size_witness :
  mSize (Cabinet_new 65536) = 0
  /\ hasSpace (Cabinet_new 65536) = false
  /\ addItem 1 (Cabinet_new 65536) = None.
Proof. apply (cabinet_of_wrapped_size 65536 1). reflexivity. Defined.

(** * Further properties of the workshop *)

Lemma putInCabinet_loop_sizes
    (cabinets cabinets' : list Cabinet) (item extraItem item' extraItem' : Item) :
  putInCabinet_loop cabinets item extraItem = Some (cabinets', item', extraItem') ->
  map mSize cabinets' = map mSize cabinets.
Proof.
  revert cabinets' item extraItem item' extraItem'.
  induction cabinets as [|c rest IH];
    intros cabinets' item extraItem item' extraItem' Hloop.
  - now injection Hloop as <- _ _.
  - cbn [putInCabinet_loop] in Hloop.
    destruct (addItem item c) as [[e c1]|] eqn:Ea; [|discriminate].
    cbn [bind] in Hloop. destruct (addItem_length _ _ _ _ Ea) as [Hs _].
    destruct (negb (e =? kSentinelItem)).
    + destruct (putInCabinet_loop rest e e) as [[[rest' i'] x']|] eqn:El;
        [|discriminate].
      cbn [bind] in Hloop. injection Hloop as <- _ _.
      cbn [map]. now rewrite Hs, (IH _ _ _ _ _ El).
    + injection Hloop as <- _ _. cbn [map]. now rewrite Hs.
Qed.

Lemma drain_sizes (ws ws1 : WorkShop) :
  WF ws ->
  drain ws = Some ws1 ->
  map mSize (mCabinets ws1) = map mSize (mCabinets ws)
  /\ mSize (mOutside ws1) = mSize (mOutside ws).
Proof.
  intros Hwf Hd.
  destruct (drain_cases ws Hwf) as [[_ Hd'] | (w & _ & Hd')]; rewrite Hd' in Hd.
  - injection Hd as <-. now split.
  - unfold putInCabinet in Hd. cbn [mCabinets mOutside mWorkbench] in Hd.
    destruct (putInCabinet_loop (mCabinets ws) w kSentinelItem)
      as [[[cabs' item'] extra']|] eqn:El; [|discriminate].
    cbn [bind] in Hd. pose proof (putInCabinet_loop_sizes _ _ _ _ _ _ El) as Hs.
    destruct (negb (item' =? kSentinelItem)).
    + destruct (addItem extra' (mOutside ws)) as [[e out']|] eqn:Ea; [|discriminate].
      cbn [bind] in Hd. injection Hd as <-. cbn [mCabinets mOutside].
      split; [exact Hs | apply (addItem_length _ _ _ _ Ea)].
    + injection Hd as <-. cbn [mCabinets mOutside]. now split.
Qed.

Lemma relocated_shape (item : Item) (ws1 ws' : WorkShop) (res : Result) :
  relocated item ws1 res ws' ->
  map mSize (mCabinets ws') = map mSize (mCabinets ws1)
  /\ mSize (mOutside ws') = mSize (mOutside ws1)
  /\ provenance (length (mCabinets ws1)) res.
Proof.
  intros [pre post Eo Hpre | before after cab pre post Ho Ec Hb Ecab Hpre | Ho Hc];
    cbn [mCabinets mOutside mSize].
  - repeat split. right. now left.
  - split; [|split; [reflexivity|]].
    + rewrite Ec, !map_app. reflexivity.
    + right. right. exists (Z.of_nat (length before) + 1).
      split; [|reflexivity]. rewrite Ec, length_app. cbn [length]. lia.
  - repeat split. now left.
Qed.

Lemma workOn_shape (item : Item) (ws : WorkShop) :
  WF ws ->
  exists res ws',
    workOn item ws = Some (res, ws')
    /\ WF ws'
    /\ mStorage (mWorkbench ws') = [item]
    /\ map mSize (mCabinets ws') = map mSize (mCabinets ws)
    /\ mSize (mOutside ws') = mSize (mOutside ws)
    /\ provenance (length (mCabinets ws)) res.
Proof.
  intros Hwf.
  destruct (drain_WF ws Hwf) as (ws1 & Hd & Hwf1 & He & Hlen & _).
  destruct (drain_sizes ws ws1 Hwf Hd) as [Hs1 Ho1].
  destruct (relocate_spec item ws1 (proj1 (wf_workbench _ Hwf1)) He)
    as (res & ws' & Hr & Hrel).
  destruct (relocated_WF _ _ _ _ Hwf1 Hrel) as (Hwf' & Hwb & _).
  destruct (relocated_shape _ _ _ _ Hrel) as (Hs' & Ho' & Hp).
  exists res, ws'. unfold workOn. rewrite Hd. cbn [bind].
  split; [exact Hr|]. split; [exact Hwf'|]. split; [exact Hwb|].
  split; [congruence|]. split; [congruence|]. now rewrite <- Hlen.
Qed.

Lemma run_shape (items : list Item) (ws : WorkShop) :
  WF ws ->
  exists ress ws',
    run ws items = Some (ress, ws')
    /\ WF ws'
    /\ length ress = length items
    /\ map mSize (mCabinets ws') = map mSize (mCabinets ws)
    /\ mSize (mOutside ws') = mSize (mOutside ws)
    /\ Forall (provenance (length (mCabinets ws))) ress.
Proof.
  revert ws. induction items as [|item items IH]; intros ws Hwf.
  - exists [], ws. cbn [run length]. repeat split; auto; apply Hwf.
  - destruct (workOn_shape item ws Hwf) as (res & ws1 & Hw & Hwf1 & _ & Hs1 & Ho1 & Hp).
    destruct (IH ws1 Hwf1) as (ress & ws' & Hr & Hwf' & Hlen & Hs & Ho & Hps).
    exists (res :: ress), ws'. cbn [run]. rewrite Hw. cbn [bind]. rewrite Hr.
    cbn [bind length].
    split; [reflexivity|]. split; [exact Hwf'|]. split; [congruence|].
    split; [congruence|]. split; [congruence|].
    constructor; [exact Hp|].
    replace (length (mCabinets ws)) with (length (mCabinets ws1)); [exact Hps|].
    rewrite <- (length_map mSize (mCabinets ws1)), Hs1. apply length_map.
Qed.

Lemma map_mSize_new (cabinetSizes : list Z) :
  Forall valid_cabinet_size cabinetSizes ->
  map mSize (map Cabinet_new cabinetSizes) = cabinetSizes.
Proof.
  induction 1 as [|size sizes [H0 H1] _ IH]; [reflexivity|].
  cbn [map Cabinet_new mSize]. unfold to_uint16.
  rewrite Z.mod_small by lia. now rewrite IH.
Qed.

(** X5: for cabinet sizes that [main] accepts (the empty list included) and
    any items whatever, the calls of [workOn] never trip an assertion nor
    read the back of an empty deque: there is one result per item, the
    cabinets keep their number and their sizes, no cabinet holds more than
    its size, and the workbench holds at most one item. *)
Theorem run_never_faults (cabinetSizes : list Z) (items : list Item) :
  Forall valid_cabinet_size cabinetSizes ->
  exists ress ws,
    run (WorkShop_new cabinetSizes) items = Some (ress, ws)
    /\ length ress = length items
    /\ map mSize (mCabinets ws) = cabinetSizes
    /\ Forall (fun c => Z.of_nat (length (mStorage c)) <= mSize c) (mCabinets ws)
    /\ Z.of_nat (length (mStorage (mWorkbench ws))) <= 1.
Proof.
  intros Hv. destruct (WorkShop_new_WF cabinetSizes Hv) as [Hwf _].
  destruct (run_shape items _ Hwf) as (ress & ws & Hr & Hwf' & Hlen & Hs & _).
  exists ress, ws. split; [exact Hr|]. split; [exact Hlen|].
  split; [rewrite Hs; now apply map_mSize_new|].
  destruct Hwf' as [_ [_ Hwb] Hc]. split; [|exact Hwb].
  eapply Forall_impl; [|exact Hc]. now intros c [_ H].
Qed.

Lemma run_never_faults_witness :
  exists ress ws,
    run (WorkShop_new [2; 1]) [7; 8; 7; 9] = Some (ress, ws)
    /\ length ress = length [7; 8; 7; 9]
    /\ map mSize (mCabinets ws) = [2; 1]
    /\ Forall (fun c => Z.of_nat (length (mStorage c)) <= mSize c) (mCabinets ws)
    /\ Z.of_nat (length (mStorage (mWorkbench ws))) <= 1.
Proof.
  apply (run_never_faults [2; 1] [7; 8; 7; 9]).
  repeat constructor.
Defined.

(** X6: after any sequence of calls the workbench holds exactly the item of
    the last call. *)
Theorem workbench_holds_last_item
    (cabinetSizes : list Z) (earlier : list Item) (x : Item) :
  Forall valid_cabinet_size cabinetSizes ->
  exists ress ws,
    run (WorkShop_new cabinetSizes) (earlier ++ [x]) = Some (ress, ws)
    /\ mStorage (mWorkbench ws) = [x].
Proof.
  intros Hv. destruct (WorkShop_new_WF cabinetSizes Hv) as [Hwf _].
  destruct (run_shape earlier _ Hwf) as (ress & ws & Hr & Hwf' & _).
  destruct (workOn_shape x ws Hwf') as (res & ws' & Hw & _ & Hwb & _).
  exists (ress ++ [res]), ws'. rewrite run_app, Hr. cbn [bind run].
  rewrite Hw. cbn [bind]. now split.
Qed.

Lemma workbench_holds_last_item_witness :
  exists ress ws,
    run (WorkShop_new [1]) ([10; 20] ++ [10]) = Some (ress, ws)
    /\ mStorage (mWorkbench ws) = [10].
Proof.
  apply (workbench_holds_last_item [1] [10; 20] 10). repeat constructor.
Defined.

(** X7: every result is NEW, OUTSIDE or the number of an existing cabinet:
    a number from 1 to the count of cabinets. *)
Theorem results_name_a_place (cabinetSizes : list Z) (items : list Item) :
  Forall valid_cabinet_size cabinetSizes ->
  exists ress,
    process_all cabinetSizes items = Some ress
    /\ Forall (provenance (length cabinetSizes)) ress.
Proof.
  intros Hv. destruct (WorkShop_new_WF cabinetSizes Hv) as [Hwf _].
  destruct (run_shape items _ Hwf) as (ress & ws & Hr & _ & _ & _ & _ & Hp).
  exists ress. unfold process_all. rewrite Hr. cbn [bind]. split; [reflexivity|].
  cbn [WorkShop_new mCabinets] in Hp. now rewrite length_map in Hp.
Qed.

Lemma results_name_a_place_witness :
  exists ress,
    process_all [1; 1] [1; 2; 3; 1; 2] = Some ress
    /\ Forall (provenance (length [1; 1])) ress.
Proof.
  apply (results_name_a_place [1; 1] [1; 2; 3; 1; 2]). repeat constructor.
Defined.

Lemma workOn_seen (x : Item) (ws : WorkShop) :
  WF ws ->
  mCabinets ws <> [] ->
  hasSpace (mOutside ws) = true ->
  ~ In kSentinelItem (mStorage (mWorkbench ws)) ->
  x <> kSentinelItem ->
  In x (stored ws) ->
  exists res ws', workOn x ws = Some (res, ws') /\ res <> NEW.
Proof.
  intros Hwf Hne Hroom Hbench Hx Hin.
  destruct (drain_WF ws Hwf) as (ws1 & Hd & Hwf1 & He & _).
  destruct (drain_copies ws ws1 x Hwf Hd Hne Hroom Hbench Hx) as (Hc & _).
  apply copies_In in Hin. rewrite <- Hc in Hin. apply copies_In in Hin.
  destruct (relocate_spec x ws1 (proj1 (wf_workbench _ Hwf1)) He)
    as (res & ws' & Hr & Hrel).
  exists res, ws'. unfold workOn. rewrite Hd. cbn [bind]. split; [exact Hr|].
  destruct Hrel as [pre post Eo Hpre | before after cab pre post Ho Ec Hb Ecab Hpre
                   | Ho Hc']; [discriminate | discriminate |].
  exfalso. unfold stored in Hin. rewrite He, !in_app_iff in Hin.
  apply absent_contents in Hc'. cbn [In] in Hin. tauto.
Qed.

Lemma run_kept_state (items : list Item) (ws : WorkShop) (seen : list Item) :
  WF ws ->
  mCabinets ws <> [] ->
  Z.of_nat (length (mStorage (mOutside ws))) + Z.of_nat (length items)
  <= mSize (mOutside ws) ->
  ~ In kSentinelItem (mStorage (mWorkbench ws)) ->
  ~ In kSentinelItem items ->
  kept seen ws ->
  exists ress ws',
    run ws items = Some (ress, ws')
    /\ WF ws'
    /\ mCabinets ws' <> []
    /\ mSize (mOutside ws') = mSize (mOutside ws)
    /\ Z.of_nat (length (mStorage (mOutside ws')))
       <= Z.of_nat (length (mStorage (mOutside ws))) + Z.of_nat (length items)
    /\ ~ In kSentinelItem (mStorage (mWorkbench ws'))
    /\ kept (items ++ seen) ws'.
Proof.
  revert ws seen. induction items as [|item items IH];
    intros ws seen Hwf Hne Hroom Hbench Hvalid Hkept.
  - exists [], ws. cbn [run length app]. repeat split; auto; try apply Hwf; try lia;
      now apply Hkept.
  - cbn [length] in Hroom. rewrite Nat2Z.inj_succ in Hroom.
    assert (Hitem : item <> kSentinelItem) by (intros ->; apply Hvalid; now left).
    destruct (workOn_kept item ws seen Hwf Hne) as
      (res & ws1 & Hw & Hwf1 & Hne1 & Hwb1 & Hkept1 & Hs1 & Hl1); auto.
    { unfold hasSpace. apply Z.ltb_lt. lia. }
    destruct (IH ws1 (item :: seen))
      as (ress & ws' & Hrun & Hwf' & Hne' & Hs' & Hl' & Hb' & Hk'); auto.
    { rewrite Hs1. lia. }
    { rewrite Hwb1. intros [H|[]]. congruence. }
    { intros H. apply Hvalid. now right. }
    exists (res :: ress), ws'. cbn [run]. rewrite Hw. cbn [bind].
    rewrite Hrun. cbn [bind length]. rewrite Nat2Z.inj_succ.
    split; [reflexivity|]. split; [exact Hwf'|]. split; [exact Hne'|].
    split; [congruence|]. split; [lia|]. split; [exact Hb'|].
    intros y Hy. destruct (Hk' y Hy) as [H1 H0].
    assert (Hiff : In y ((item :: items) ++ seen) <-> In y (items ++ item :: seen))
      by (cbn [app In]; rewrite !in_app_iff; cbn [In]; tauto).
    split; intros H; [apply H1 | apply H0]; tauto.
Qed.

Lemma run_kept_from_new (cabinetSizes : list Z) (items : list Item) :
  cabinetSizes <> [] ->
  Forall valid_cabinet_size cabinetSizes ->
  ~ In kSentinelItem items ->
  Z.of_nat (length items) <= 65535 ->
  exists ress ws,
    run (WorkShop_new cabinetSizes) items = Some (ress, ws)
    /\ WF ws
    /\ mCabinets ws <> []
    /\ mSize (mOutside ws) = 65535
    /\ Z.of_nat (length (mStorage (mOutside ws))) <= Z.of_nat (length items)
    /\ ~ In kSentinelItem (mStorage (mWorkbench ws))
    /\ kept items ws.
Proof.
  intros Hne Hv Hvalid Hlen.
  destruct (WorkShop_new_WF cabinetSizes Hv) as [Hwf Hst].
  assert (Hcabs : mCabinets (WorkShop_new cabinetSizes) <> [])
    by (cbn [WorkShop_new mCabinets]; now destruct cabinetSizes).
  assert (Hroom : Z.of_nat (length (mStorage (mOutside (WorkShop_new cabinetSizes))))
                  + Z.of_nat (length items)
                  <= mSize (mOutside (WorkShop_new cabinetSizes)))
    by (rewrite mOutside_size; cbn [WorkShop_new mOutside Cabinet_new mStorage length];
        lia).
  assert (Hk0 : kept [] (WorkShop_new cabinetSizes))
    by (intros y _; rewrite Hst; now split).
  destruct (run_kept_state items _ [] Hwf Hcabs Hroom (fun H => H) Hvalid Hk0)
    as (ress & ws & Hrun & Hwf' & Hne' & Hs' & Hl' & Hb' & Hk').
  exists ress, ws. rewrite mOutside_size in Hs'.
  cbn [WorkShop_new mOutside Cabinet_new mStorage length] in Hl'.
  split; [exact Hrun|]. split; [exact Hwf'|]. split; [exact Hne'|].
  split; [exact Hs'|]. split; [lia|]. split; [exact Hb'|].
  intros y Hy. specialize (Hk' y Hy). now rewrite app_nil_r in Hk'.
Qed.

(** X8: with at least one cabinet, sizes that [main] accepts and at most
    65535 items, none of them the sentinel, nothing is lost and nothing is
    doubled: after the calls every item passed in is held exactly once,
    whether the item came once or many times, and whatever else is held is a
    sentinel entry. *)
Theorem every_item_held_once (cabinetSizes : list Z) (items : list Item) :
  cabinetSizes <> [] ->
  Forall valid_cabinet_size cabinetSizes ->
  ~ In kSentinelItem items ->
  Z.of_nat (length items) <= 65535 ->
  exists ress ws,
    run (WorkShop_new cabinetSizes) items = Some (ress, ws)
    /\ (forall y, In y items -> copies y (stored ws) = 1%nat)
    /\ (forall y, In y (stored ws) -> y = kSentinelItem \/ In y items).
Proof.
  intros Hne Hv Hvalid Hlen.
  destruct (run_kept_from_new cabinetSizes items Hne Hv Hvalid Hlen)
    as (ress & ws & Hrun & _ & _ & _ & _ & _ & Hk).
  exists ress, ws. split; [exact Hrun|]. split.
  - intros y Hy. apply Hk; [|exact Hy]. intros ->. contradiction.
  - intros y Hy. destruct (Z.eq_dec y kSentinelItem) as [|Hs]; [now left | right].
    destruct (in_dec Z.eq_dec y items) as [H|H]; [exact H|].
    apply copies_In in Hy. rewrite (proj2 (Hk y Hs) H) in Hy. lia.
Qed.

Lemma every_item_held_once_witness :
  exists ress ws,
    run (WorkShop_new [1; 2]) [4; 5; 4; 6; 7; 5] = Some (ress, ws)
    /\ (forall y, In y [4; 5; 4; 6; 7; 5] -> copies y (stored ws) = 1%nat)
    /\ (forall y, In y (stored ws) ->
        y = kSentinelItem \/ In y [4; 5; 4; 6; 7; 5]).
Proof.
  apply (every_item_held_once [1; 2] [4; 5; 4; 6; 7; 5]).
  - discriminate.
  - repeat constructor.
  - cbn [In]. intros [H|[H|[H|[H|[H|[H|[]]]]]]]; discriminate.
  - cbn [length]. lia.
Defined.

(** X9: under the same conditions a call reports NEW exactly when its item
    was in none of the earlier calls: an item seen before is always found
    again, outside or in a cabinet. *)
Theorem new_exactly_first_time
    (cabinetSizes : list Z) (earlier : list Item) (x : Item) :
  cabinetSizes <> [] ->
  Forall valid_cabinet_size cabinetSizes ->
  ~ In kSentinelItem (earlier ++ [x]) ->
  Z.of_nat (length earlier) < 65535 ->
  exists ress res,
    process_all cabinetSizes (earlier ++ [x]) = Some (ress ++ [res])
    /\ (res = NEW <-> ~ In x earlier).
Proof.
  intros Hne Hv Hvalid Hlen.
  assert (Hx : x <> kSentinelItem)
    by (intros ->; apply Hvalid; rewrite in_app_iff; right; now left).
  assert (Hearlier : ~ In kSentinelItem earlier)
    by (intros H; apply Hvalid; rewrite in_app_iff; now left).
  destruct (run_kept_from_new cabinetSizes earlier Hne Hv Hearlier)
    as (ress & ws & Hrun & Hwf & Hcabs & Hs & Hl & Hb & Hk); [lia|].
  destruct (Hk x Hx) as [Hone Hzero].
  unfold process_all. rewrite run_app, Hrun. cbn [bind run].
  destruct (in_dec Z.eq_dec x earlier) as [Hin|Hnin].
  - destruct (workOn_seen x ws Hwf Hcabs) as (res & ws' & Hw & Hres); auto.
    { unfold hasSpace. apply Z.ltb_lt. lia. }
    { apply copies_In. rewrite (Hone Hin). lia. }
    exists ress, res. rewrite Hw. cbn [bind]. split; [reflexivity | tauto].
  - destruct (workOn_unseen x ws Hwf Hx) as (ws' & Hw & _).
    { intros H. apply copies_In in H. rewrite (Hzero Hnin) in H. lia. }
    exists ress, NEW. rewrite Hw. cbn [bind]. split; [reflexivity | tauto].
Qed.

Lemma new_exactly_first_time_witness :
  exists ress res,
    process_all [1] ([10; 20] ++ [10]) = Some (ress ++ [res])
    /\ (res = NEW <-> ~ In 10 [10; 20]).
Proof.
  apply (new_exactly_first_time [1] [10; 20] 10).
  - discriminate.
  - repeat constructor.
  - cbn [app In]. intros [H|[H|[H|[]]]]; discriminate.
  - cbn [length]. lia.
Defined.

Lemma workOn_no_cabinets (n : nat) (bench : list Item) (item : Item) :
  Z.of_nat n <= 65535 ->
  (length bench <= 1)%nat ->
  ~ In kSentinelItem bench ->
  item <> kSentinelItem ->
  exists n',
    workOn item (mkWorkShop (mkCabinet 65535 (repeat kSentinelItem n))
                            (mkCabinet 1 bench) [])
    = Some (NEW, mkWorkShop (mkCabinet 65535 (repeat kSentinelItem n'))
                            (mkCabinet 1 [item]) [])
    /\ Z.of_nat n' <= 65535.
Proof.
  intros Hn Hlen Hbench Hitem.
  assert (Hfind : forall m, find_from item (repeat kSentinelItem m) = m).
  { intros m. rewrite find_from_notin, repeat_length; [reflexivity|].
    intros H. apply repeat_spec in H. congruence. }
  destruct bench as [|w [|w' l]]; [| |cbn [length] in Hlen; lia].
  - exists n. split; [|exact Hn]. unfold workOn, drain, relocate, find, end_.
    cbn [empty mWorkbench mStorage negb bind mOutside mCabinets workOn_loop].
    rewrite Hfind, repeat_length, Nat.eqb_refl. reflexivity.
  - assert (Hw : w <> kSentinelItem) by (intros ->; apply Hbench; now left).
    unfold workOn, drain, pop_back, putInCabinet.
    cbn [empty mWorkbench mStorage negb back_and_pop last removelast bind
         mOutside mCabinets mSize putInCabinet_loop].
    destruct (Z.eqb_spec w kSentinelItem) as [|_]; [contradiction|]. cbn [negb].
    unfold addItem at 1, hasSpace. cbn [mStorage mSize]. rewrite repeat_length.
    destruct (Z.ltb_spec (Z.of_nat n) 65535) as [Hlt|Hge].
    + exists (S n). split; [|lia]. cbn [bind].
      unfold relocate, find, end_.
      cbn [mOutside mWorkbench mCabinets mStorage workOn_loop bind].
      change (kSentinelItem :: repeat kSentinelItem n)
        with (repeat kSentinelItem (S n)).
      rewrite Hfind, repeat_length, Nat.eqb_refl. reflexivity.
    + destruct n as [|m]; [lia|]. exists (S m). split; [|exact Hn].
      assert (Hbp : back_and_pop (repeat kSentinelItem (S m))
                    = Some (kSentinelItem, repeat kSentinelItem m))
        by (cbn [repeat]; rewrite repeat_cons; apply back_and_pop_snoc).
      rewrite Hbp. cbn [bind].
      unfold relocate, find, end_.
      cbn [mOutside mWorkbench mCabinets mStorage workOn_loop bind].
      change (kSentinelItem :: repeat kSentinelItem m)
        with (repeat kSentinelItem (S m)).
      rewrite Hfind, repeat_length, Nat.eqb_refl. reflexivity.
Qed.

(** X10: without cabinets nothing is ever found again.  Whatever the items,
    as long as none is the sentinel, every call reports NEW, also for an
    item that was passed in before, and Outside holds sentinel entries
    only. *)
Theorem no_cabinets_all_new (items : list Item) :
  ~ In kSentinelItem items ->
  exists ws,
    run (WorkShop_new []) items = Some (repeat NEW (length items), ws)
    /\ Forall (fun y => y = kSentinelItem) (mStorage (mOutside ws)).
Proof.
  intros Hvalid.
  assert (Hgen : forall n bench,
             Z.of_nat n <= 65535 -> (length bench <= 1)%nat ->
             ~ In kSentinelItem bench ->
             exists n' bench',
               run (mkWorkShop (mkCabinet 65535 (repeat kSentinelItem n))
                               (mkCabinet 1 bench) []) items
               = Some (repeat NEW (length items),
                       mkWorkShop (mkCabinet 65535 (repeat kSentinelItem n'))
                                  (mkCabinet 1 bench') [])).
  { induction items as [|item items IH]; intros n bench Hn Hlen Hbench.
    - now exists n, bench.
    - assert (Hitem : item <> kSentinelItem) by (intros ->; apply Hvalid; now left).
      destruct (workOn_no_cabinets n bench item Hn Hlen Hbench Hitem)
        as (n1 & Hw & Hn1).
      destruct (IH (fun H => Hvalid (or_intror H)) n1 [item] Hn1)
        as (n' & bench' & Hr); [cbn [length]; lia | intros [H|[]]; congruence |].
      exists n', bench'. cbn [run]. rewrite Hw. cbn [bind]. rewrite Hr.
      reflexivity. }
  destruct (Hgen O []) as (n' & bench' & Hr); [lia | cbn [length]; lia | intros [] |].
  eexists. split; [exact Hr|]. cbn [mOutside mStorage].
  apply Forall_forall. intros y Hy. now apply repeat_spec in Hy.
Qed.

Lemma no_cabinets_all_new_witness :
  exists ws,
    run (WorkShop_new []) [5; 6; 5; 5] = Some (repeat NEW (length [5; 6; 5; 5]), ws)
    /\ Forall (fun y => y = kSentinelItem) (mStorage (mOutside ws)).
Proof.
  apply (no_cabinets_all_new [5; 6; 5; 5]).
  cbn [In]. intros [H|[H|[H|[H|[]]]]]; discriminate.
Defined.

(** ** Finding again the item worked on before the last one *)

Lemma addItem_front (item : Item) (c c' : Cabinet) (e : Item) :
  addItem item c = Some (e, c') -> exists tl, mStorage c' = item :: tl.
Proof.
  unfold addItem. destruct (hasSpace c).
  - intros [= _ <-]. now eexists.
  - destruct (back_and_pop (mStorage c)) as [[l r]|]; [|discriminate].
    cbn [bind]. intros [= _ <-]. now eexists.
Qed.

Lemma putInCabinet_first (item : Item) (ws ws1 : WorkShop)
                         (c : Cabinet) (rest : list Cabinet) :
  putInCabinet item ws = Some ws1 ->
  mCabinets ws = c :: rest ->
  item <> kSentinelItem ->
  hasSpace (mOutside ws) = true ->
  exists e c1 rest1,
    addItem item c = Some (e, c1)
    /\ mCabinets ws1 = c1 :: rest1
    /\ (e <> kSentinelItem ->
        (rest = [] ->
         rest1 = [] /\ mStorage (mOutside ws1) = e :: mStorage (mOutside ws))
        /\ (forall c2 rest2, rest = c2 :: rest2 ->
            exists c2' rest2' tl, rest1 = c2' :: rest2' /\ mStorage c2' = e :: tl)).
Proof.
  unfold putInCabinet. intros Hp Ecabs Hitem Hroom. rewrite Ecabs in Hp.
  cbn [putInCabinet_loop] in Hp.
  destruct (addItem item c) as [[e c1]|] eqn:Ea; [|discriminate].
  cbn [bind] in Hp. exists e, c1.
  destruct (Z.eqb_spec e kSentinelItem) as [He|He]; cbn [negb bind] in Hp.
  - destruct (Z.eqb_spec item kSentinelItem) as [|_]; [contradiction|].
    cbn [negb] in Hp. rewrite (addItem_hasSpace _ _ Hroom) in Hp.
    cbn [bind] in Hp. injection Hp as <-. exists rest.
    split; [reflexivity|]. split; [reflexivity|]. intros H. contradiction.
  - destruct (putInCabinet_loop rest e e) as [[[rest1 i'] x']|] eqn:El;
      [|discriminate].
    cbn [bind] in Hp. exists rest1. split; [reflexivity|].
    assert (Ecabs1 : mCabinets ws1 = c1 :: rest1).
    { destruct (negb (i' =? kSentinelItem)).
      - destruct (addItem x' (mOutside ws)) as [[e' out']|]; [|discriminate].
        cbn [bind] in Hp. now injection Hp as <-.
      - now injection Hp as <-. }
    split; [exact Ecabs1|]. intros _. split.
    + intros ->. cbn [putInCabinet_loop] in El. injection El as <- <- <-.
      split; [reflexivity|]. cbn [bind] in Hp.
      destruct (Z.eqb_spec e kSentinelItem) as [|_]; [contradiction|].
      cbn [negb] in Hp. rewrite (addItem_hasSpace _ _ Hroom) in Hp.
      cbn [bind] in Hp. now injection Hp as <-.
    + intros c2 rest2 ->. cbn [putInCabinet_loop] in El.
      destruct (addItem e c2) as [[e2 c2']|] eqn:Ea2; [|discriminate].
      cbn [bind] in El. destruct (addItem_front _ _ _ _ Ea2) as (tl & Etl).
      destruct (negb (e2 =? kSentinelItem)).
      * destruct (putInCabinet_loop rest2 e2 e2) as [[[rest2' i''] x'']|];
          [|discriminate].
        cbn [bind] in El. injection El as <- _ _. now exists c2', rest2', tl.
      * injection El as <- _ _. now exists c2', rest2, tl.
Qed.

Lemma workOn_leaves_in_front (x y : Item) (ws ws' : WorkShop) (res : Result) :
  WF ws ->
  mStorage (mWorkbench ws) = [x] ->
  mCabinets ws <> [] ->
  y <> x ->
  workOn y ws = Some (res, ws') ->
  exists c rest t, mCabinets ws' = c :: rest /\ mStorage c = x :: t.
Proof.
  intros Hwf Hwb Hne Hyx Hw. pose proof Hwf as [Hbo _ Hbc].
  destruct (drain_cases ws Hwf) as [[E _] | (w & E & Hd)]; [congruence|].
  rewrite Hwb in E. injection E as <-.
  destruct (putInCabinet_spec x
              (mkWorkShop (mOutside ws) (mkCabinet 1 []) (mCabinets ws)) Hbo Hbc)
    as (ws1 & Hp & Hwb1 & _ & _ & _ & _ & _ & Hhd).
  cbn [mOutside mWorkbench mCabinets] in *.
  destruct (mCabinets ws) as [|c0 rest0] eqn:Ec; [congruence|].
  destruct (Hhd c0 rest0 eq_refl) as (c1 & rest1 & tl & Ecabs1 & Ec1).
  destruct (relocate_spec y ws1) as (res1 & ws1' & Hr & Hrel);
    [now rewrite Hwb1 | now rewrite Hwb1 |].
  unfold workOn in Hw. rewrite Hd, Hp in Hw. cbn [bind] in Hw.
  rewrite Hr in Hw. injection Hw as <- <-.
  destruct Hrel as [pre post Eo Hpre | before after cab pre post Ho Ecabs Hb Ecab Hpre
                   | Ho Habs]; cbn [mCabinets].
  - now exists c1, rest1, tl.
  - rewrite Ecabs1 in Ecabs. destruct before as [|b before'].
    + injection Ecabs as <- <-. rewrite Ec1 in Ecab.
      destruct pre as [|p pre']; injection Ecab as Ep Et; [congruence|].
      subst p. eexists _, _, (pre' ++ post). split; reflexivity.
    + injection Ecabs as <- ->. eexists _, _, tl. split; [reflexivity | exact Ec1].
  - now exists c1, rest1, tl.
Qed.

Lemma workOn_recall (x y : Item) (ws : WorkShop) (c : Cabinet)
                    (rest : list Cabinet) (t : list Item) :
  WF ws ->
  mStorage (mWorkbench ws) = [y] ->
  mCabinets ws = c :: rest ->
  mStorage c = x :: t ->
  copies x (stored ws) = 1%nat ->
  hasSpace (mOutside ws) = true ->
  x <> kSentinelItem ->
  y <> kSentinelItem ->
  y <> x ->
  exists ws',
    workOn x ws = Some (recalled_from (map mSize (mCabinets ws)), ws').
Proof.
  intros Hwf Hwb Ecabs Ec Hone Hroom Hx Hy Hyx. pose proof Hwf as [Hbo _ Hbc].
  assert (Hc : bounded c) by (rewrite Ecabs in Hbc; now inversion Hbc).
  assert (Hcount : copies x (mStorage (mOutside ws)) = 0%nat
                   /\ copies x t = 0%nat /\ copies x (contents rest) = 0%nat).
  { unfold stored in Hone. rewrite Hwb, Ecabs in Hone. copies_norm_in Hone.
    rewrite Ec in Hone. copies_norm_in Hone. copies_cases. }
  destruct Hcount as (Hout & Ht & Hrest).
  destruct (drain_cases ws Hwf) as [[E _] | (w & E & Hd)]; [congruence|].
  rewrite Hwb in E. injection E as <-.
  set (ws0 := mkWorkShop (mOutside ws) (mkCabinet 1 []) (mCabinets ws)) in *.
  destruct (putInCabinet_spec y ws0 Hbo Hbc) as (ws1 & Hp & Hwb1 & _).
  assert (Hne0 : mCabinets ws0 <> []) by (cbn; rewrite Ecabs; discriminate).
  destruct (putInCabinet_copies y ws0 ws1 x Hp Hne0 Hroom Hy Hx) as (Hc1 & _).
  destruct (putInCabinet_first y ws0 ws1 c rest Hp Ecabs Hy Hroom)
    as (e & c1 & rest1 & Ha & Ecabs1 & Hcont).
  cbn [ws0 mOutside mCabinets] in Hc1, Hcont. rewrite Ecabs, Ecabs1 in Hc1.
  copies_norm_in Hc1. rewrite Ec in Hc1. copies_norm_in Hc1.
  rewrite Hout, Ht, Hrest in Hc1.
  destruct (Z.eq_dec y x) as [|_]; [contradiction|].
  destruct (Z.eq_dec x x) as [_|]; [|congruence].
  destruct (relocate_spec x ws1) as (res & ws' & Hr & Hrel);
    [now rewrite Hwb1 | now rewrite Hwb1 |].
  exists ws'. unfold workOn. rewrite Hd, Hp. cbn [bind]. rewrite Hr.
  do 2 f_equal. rewrite Ecabs. cbn [map recalled_from].
  destruct (addItem_cases y c Hc)
    as [[Hlt Ha'] | (front & oldest & Efront & Hsize & Ha')];
    rewrite Ha' in Ha; injection Ha as <- <-.
  - (* cabinet 1 had space *)
    rewrite Ec in Hlt. cbn [length] in Hlt.
    destruct (Z.leb_spec 2 (mSize c)); [|lia].
    destruct Hrel as [pre post Eo Hpre | before after cab pre post Ho Ecabs' Hb Ecab Hpre
                     | Ho Habs].
    + exfalso. rewrite Eo in Hc1. copies_norm_in Hc1. rewrite Ec in Hc1.
      cbn [mStorage] in Hc1. copies_norm_in Hc1. copies_cases.
    + rewrite Ecabs1 in Ecabs'. destruct before as [|b before']; [reflexivity|].
      exfalso. injection Ecabs' as <- _. inversion Hb as [|? ? Hnb _]; subst.
      apply Hnb. cbn [mStorage]. rewrite Ec. right. now left.
    + exfalso. rewrite Ecabs1 in Habs. inversion Habs as [|? ? Hnb _]; subst.
      apply Hnb. cbn [mStorage]. rewrite Ec. right. now left.
  - (* cabinet 1 was full *)
    rewrite Ec in Efront, Hsize. cbn [length] in Hsize.
    destruct front as [|f front'].
    + (* size 1: the item leaves cabinet 1 *)
      injection Efront as <- ->. cbn [length] in Hsize.
      destruct (Z.leb_spec 2 (mSize c)); [lia|].
      destruct (Hcont Hx) as [Hnil Hcons]. destruct rest as [|c2 rest2].
      * destruct (Hnil eq_refl) as [-> Eout].
        destruct Hrel as [pre post Eo Hpre | before after cab pre post Ho Ecabs' Hb Ecab Hpre
                         | Ho Habs]; [reflexivity | |];
          exfalso; apply Ho; rewrite Eout; now left.
      * destruct (Hcons c2 rest2 eq_refl) as (c2' & rest2' & tl & -> & Ec2).
        destruct Hrel as [pre post Eo Hpre | before after cab pre post Ho Ecabs' Hb Ecab Hpre
                         | Ho Habs].
        -- exfalso. rewrite Eo in Hc1. cbn [mStorage] in Hc1.
           copies_norm_in Hc1. rewrite Ec2 in Hc1. copies_norm_in Hc1. copies_cases.
        -- rewrite Ecabs1 in Ecabs'. destruct before as [|b [|b' before']].
           ++ exfalso. injection Ecabs' as <- _. cbn [mStorage] in Ecab.
              destruct pre as [|p [|p' pre']]; discriminate || (injection Ecab; congruence).
           ++ reflexivity.
           ++ exfalso. injection Ecabs' as _ <- _.
              inversion Hb as [|? ? _ Hb']; subst.
              inversion Hb' as [|? ? Hnb _]; subst. apply Hnb. rewrite Ec2. now left.
        -- exfalso. rewrite Ecabs1 in Habs. inversion Habs as [|? ? _ Hb']; subst.
           inversion Hb' as [|? ? Hnb _]; subst. apply Hnb. rewrite Ec2. now left.
    + (* size 2 or more: the item stays in cabinet 1 *)
      injection Efront as <- Et. rewrite Et, length_app in Hsize.
      cbn [length] in Hsize.
      destruct (Z.leb_spec 2 (mSize c)); [|lia].
      destruct Hrel as [pre post Eo Hpre | before after cab pre post Ho Ecabs' Hb Ecab Hpre
                       | Ho Habs].
      * exfalso. rewrite Eo in Hc1. cbn [mStorage] in Hc1.
        copies_norm_in Hc1. copies_cases.
      * rewrite Ecabs1 in Ecabs'. destruct before as [|b before']; [reflexivity|].
        exfalso. injection Ecabs' as <- _. inversion Hb as [|? ? Hnb _]; subst.
        apply Hnb. cbn [mStorage]. right. now left.
      * exfalso. rewrite Ecabs1 in Habs. inversion Habs as [|? ? Hnb _]; subst.
        apply Hnb. cbn [mStorage]. right. now left.
Qed.

Lemma run_sizes (items : list Item) (ws ws' : WorkShop) (ress : list Result) :
  WF ws ->
  run ws items = Some (ress, ws') ->
  map mSize (mCabinets ws') = map mSize (mCabinets ws).
Proof.
  intros Hwf Hr.
  destruct (run_shape items ws Hwf) as (ress1 & ws1 & Hr1 & _ & _ & Hs & _).
  rewrite Hr in Hr1. now injection Hr1 as _ <-.
Qed.

(** X15: the item worked on before the last one is found where the cascade
    left it.  With at least one cabinet, after the calls for [x], for a
    different item [y] and for [x] again, the third call reports cabinet 1
    when cabinet 1 has size 2 or more; with a first cabinet of size 1 it
    reports cabinet 2, or OUTSIDE when there is no second cabinet.  This
    holds after any earlier calls, as long as no item is the sentinel and
    Outside has not run full. *)
Theorem recall_after_one_other_item
    (cabinetSizes : list Z) (earlier : list Item) (x y : Item) :
  cabinetSizes <> [] ->
  Forall valid_cabinet_size cabinetSizes ->
  ~ In kSentinelItem (earlier ++ [x; y]) ->
  y <> x ->
  Z.of_nat (length earlier) + 2 < 65535 ->
  exists ress,
    process_all cabinetSizes (earlier ++ [x; y; x])
    = Some (ress ++ [recalled_from cabinetSizes]).
Proof.
  intros Hne Hv Hvalid Hyx Hlen.
  assert (Hearlier : ~ In kSentinelItem earlier)
    by (intros H; apply Hvalid; rewrite in_app_iff; now left).
  assert (Hx : x <> kSentinelItem)
    by (intros ->; apply Hvalid; rewrite in_app_iff; right; now left).
  assert (Hy : y <> kSentinelItem)
    by (intros ->; apply Hvalid; rewrite in_app_iff; right; right; now left).
  destruct (WorkShop_new_WF cabinetSizes Hv) as [Hwf0 _].
  destruct (run_kept_from_new cabinetSizes earlier Hne Hv Hearlier)
    as (ress0 & ws0 & Hrun0 & Hwf & Hcabs & Hs & Hl & Hb & Hk); [lia|].
  destruct (workOn_kept x ws0 earlier Hwf Hcabs)
    as (res1 & wsA & Hw1 & HwfA & HcabsA & HwbA & HkA & HsA & HlA); auto.
  { unfold hasSpace. apply Z.ltb_lt. lia. }
  destruct (workOn_kept y wsA (x :: earlier) HwfA HcabsA)
    as (res2 & wsB & Hw2 & HwfB & HcabsB & HwbB & HkB & HsB & HlB); auto.
  { unfold hasSpace. apply Z.ltb_lt. lia. }
  { rewrite HwbA. intros [H|[]]. congruence. }
  destruct (workOn_leaves_in_front x y wsA wsB res2 HwfA HwbA HcabsA Hyx Hw2)
    as (c & rest & t & EcabsB & Ec).
  destruct (workOn_recall x y wsB c rest t HwfB HwbB EcabsB Ec) as (ws' & Hw3); auto.
  { apply (HkB x Hx). right. now left. }
  { unfold hasSpace. apply Z.ltb_lt. lia. }
  assert (HrunB : run (WorkShop_new cabinetSizes) (earlier ++ [x; y])
                  = Some (ress0 ++ [res1; res2], wsB)).
  { rewrite run_app, Hrun0. cbn [bind run]. rewrite Hw1. cbn [bind].
    rewrite Hw2. reflexivity. }
  pose proof (run_sizes _ _ _ _ Hwf0 HrunB) as Hsizes.
  cbn [WorkShop_new mCabinets] in Hsizes. rewrite (map_mSize_new _ Hv) in Hsizes.
  rewrite Hsizes in Hw3.
  exists (ress0 ++ [res1; res2]). unfold process_all.
  replace (earlier ++ [x; y; x]) with ((earlier ++ [x; y]) ++ [x])
    by (now rewrite <- app_assoc).
  rewrite run_app, HrunB. cbn [bind run]. rewrite Hw3. reflexivity.
Qed.

Lemma recall_after_one_other_item_witness :
  exists ress,
    process_all [1; 3] ([4; 5] ++ [10; 20; 10])
    = Some (ress ++ [recalled_from [1; 3]]).
Proof.
  apply (recall_after_one_other_item [1; 3] [4; 5] 10 20).
  - discriminate.
  - repeat constructor.
  - cbn [app In]. intros [H|[H|[H|[H|[]]]]]; discriminate.
  - discriminate.
  - cbn [length]. lia.
Defined.

(** ** The cascade through full cabinets *)

Lemma shifted_not_sentinel (carry : Item) (cabinets : list Cabinet) :
  Forall bounded cabinets ->
  Forall full cabinets ->
  carry <> kSentinelItem ->
  snd (shifted carry cabinets) <> kSentinelItem.
Proof.
  intros Hb. revert carry. induction Hb as [|c rest Hc _ IH]; intros carry Hf Hcarry.
  - exact Hcarry.
  - inversion Hf as [|? ? [Hfull Hns] Hf']; subst. cbn [shifted].
    destruct (shifted (last (mStorage c) carry) rest) as [rest' out] eqn:E.
    cbn [snd]. change out with (snd (rest', out)). rewrite <- E. apply IH; [exact Hf'|].
    destruct (mStorage c) as [|a l] eqn:El.
    + unfold hasSpace in Hfull. rewrite El in Hfull. cbn [length] in Hfull.
      destruct Hc as [H1 _]. apply Z.ltb_ge in Hfull. lia.
    + intros H. apply Hns. rewrite <- H. rewrite <- El.
      destruct (exists_last (l := a :: l)) as (front & z & Ez); [discriminate|].
      rewrite El, Ez, last_last, in_app_iff. right. now left.
Qed.

Lemma addItem_when_full (item : Item) (c : Cabinet) :
  bounded c ->
  hasSpace c = false ->
  addItem item c
  = Some (last (mStorage c) item,
          mkCabinet (mSize c) (item :: removelast (mStorage c))).
Proof.
  intros Hc Hfull.
  destruct (addItem_cases item c Hc) as [[Hlt _] | (front & oldest & E & _ & ->)].
  - unfold hasSpace in Hfull. apply Z.ltb_ge in Hfull. lia.
  - now rewrite E, last_last, removelast_last.
Qed.

Lemma putInCabinet_loop_full (cabinets : list Cabinet) (item extraItem : Item) :
  Forall bounded cabinets ->
  Forall full cabinets ->
  item <> kSentinelItem ->
  putInCabinet_loop cabinets item extraItem
  = Some (fst (shifted item cabinets), snd (shifted item cabinets),
          match cabinets with
          | [] => extraItem
          | _ :: _ => snd (shifted item cabinets)
          end).
Proof.
  intros Hb. revert item extraItem.
  induction Hb as [|c rest Hc Hrest IH]; intros item extraItem Hf Hitem;
    [reflexivity|].
  inversion Hf as [|? ? Hfc Hf']; subst. pose proof Hfc as [Hfull Hns].
  assert (Hlast : last (mStorage c) item <> kSentinelItem).
  { pose proof (shifted_not_sentinel item [c]) as H. cbn [shifted snd] in H.
    apply H; auto. }
  cbn [putInCabinet_loop shifted]. rewrite (addItem_when_full item c Hc Hfull).
  cbn [bind]. destruct (Z.eqb_spec (last (mStorage c) item) kSentinelItem);
    [contradiction|].
  cbn [negb]. rewrite (IH _ _ Hf' Hlast).
  destruct (shifted (last (mStorage c) item) rest) as [rest' out] eqn:E.
  cbn [bind fst snd]. destruct rest; [|reflexivity].
  cbn [shifted] in E. now injection E as <- <-.
Qed.

(** X16: the cascade when nothing has space.  If the workbench holds an
    item, every cabinet is full and no sentinel is involved, clearing the
    workbench shifts the whole row: each cabinet takes at its front what the
    cabinet before it gave up (the first one takes the workbench item), each
    gives up its back item, and the back item of the last cabinet goes to the
    front of Outside.  Every cabinet keeps its size and its number of
    entries. *)
Theorem drain_shifts_full_cabinets (ws : WorkShop) (w : Item) :
  WF ws ->
  mStorage (mWorkbench ws) = [w] ->
  w <> kSentinelItem ->
  mCabinets ws <> [] ->
  Forall full (mCabinets ws) ->
  hasSpace (mOutside ws) = true ->
  drain ws
  = Some (mkWorkShop
            (mkCabinet (mSize (mOutside ws))
                       (snd (shifted w (mCabinets ws)) :: mStorage (mOutside ws)))
            (mkCabinet 1 [])
            (fst (shifted w (mCabinets ws))))
  /\ map mSize (fst (shifted w (mCabinets ws))) = map mSize (mCabinets ws)
  /\ map (fun c => length (mStorage c)) (fst (shifted w (mCabinets ws)))
     = map (fun c => length (mStorage c)) (mCabinets ws).
Proof.
  intros Hwf Hwb Hw Hne Hfull Hroom. pose proof Hwf as [_ _ Hbc]. split.
  - destruct (drain_cases ws Hwf) as [[E _] | (w' & E & ->)]; [congruence|].
    rewrite Hwb in E. injection E as <-.
    unfold putInCabinet. cbn [mCabinets mOutside mWorkbench].
    rewrite (putInCabinet_loop_full _ w kSentinelItem Hbc Hfull Hw). cbn [bind].
    pose proof (shifted_not_sentinel w _ Hbc Hfull Hw) as Hout.
    destruct (Z.eqb_spec (snd (shifted w (mCabinets ws))) kSentinelItem);
      [contradiction|].
    cbn [negb]. destruct (mCabinets ws) as [|c rest] eqn:Ec; [congruence|].
    rewrite (addItem_hasSpace _ _ Hroom). reflexivity.
  - clear Hne Hwb Hwf. revert w Hw.
    induction Hbc as [|c rest Hc _ IH]; intros w Hw; [now split|].
    inversion Hfull as [|? ? Hfc Hf']; subst. cbn [shifted].
    assert (Hlast : last (mStorage c) w <> kSentinelItem).
    { pose proof (shifted_not_sentinel w [c]) as H. cbn [shifted snd] in H.
      apply H; auto. }
    destruct (IH Hf' _ Hlast) as [Hs Hl].
    destruct (shifted (last (mStorage c) w) rest) as [rest' out].
    cbn [fst map mSize mStorage length] in *. rewrite Hs, Hl. split; [reflexivity|].
    f_equal. destruct Hfc as [Hfull' _]. destruct Hc as [H1 _].
    destruct (mStorage c) as [|a l] eqn:El.
    + unfold hasSpace in Hfull'. rewrite El in Hfull'. apply Z.ltb_ge in Hfull'.
      cbn [length] in Hfull'. lia.
    + destruct (exists_last (l := a :: l)) as (front & z & ->); [discriminate|].
      rewrite removelast_last, length_app. cbn [length]. lia.
Qed.

Lemma drain_shifts_full_cabinets_witness :
  drain (mkWorkShop (mkCabinet 65535 [kSentinelItem]) (mkCabinet 1 [30])
                    [mkCabinet 1 [20]; mkCabinet 2 [10; 5]])
  = Some (mkWorkShop
            (mkCabinet 65535
               (snd (shifted 30 [mkCabinet 1 [20]; mkCabinet 2 [10; 5]])
                :: [kSentinelItem]))
            (mkCabinet 1 [])
            (fst (shifted 30 [mkCabinet 1 [20]; mkCabinet 2 [10; 5]])))
  /\ map mSize (fst (shifted 30 [mkCabinet 1 [20]; mkCabinet 2 [10; 5]]))
     = map mSize [mkCabinet 1 [20]; mkCabinet 2 [10; 5]]
  /\ map (fun c => length (mStorage c))
         (fst (shifted 30 [mkCabinet 1 [20]; mkCabinet 2 [10; 5]]))
     = map (fun c => length (mStorage c)) [mkCabinet 1 [20]; mkCabinet 2 [10; 5]].
Proof.
  apply (drain_shifts_full_cabinets
           (mkWorkShop (mkCabinet 65535 [kSentinelItem]) (mkCabinet 1 [30])
                       [mkCabinet 1 [20]; mkCabinet 2 [10; 5]]) 30).
  - constructor; cbn [mOutside mWorkbench mCabinets].
    + split; cbn [mSize mStorage length]; lia.
    + split; cbn [mSize mStorage length]; [reflexivity | lia].
    + repeat constructor; cbn [mSize mStorage length]; lia.
  - reflexivity.
  - discriminate.
  - discriminate.
  - repeat constructor; cbn [mStorage In]; intros H; intuition discriminate.
  - reflexivity.
Defined.

Lemma putInCabinet_loop_stops
    (before after : list Cabinet) (cab : Cabinet) (item extraItem : Item) :
  Forall bounded before ->
  Forall full before ->
  hasSpace cab = true ->
  item <> kSentinelItem ->
  putInCabinet_loop (before ++ cab :: after) item extraItem
  = Some (fst (shifted item before)
            ++ mkCabinet (mSize cab) (snd (shifted item before) :: mStorage cab)
            :: after,
          snd (shifted item before), kSentinelItem).
Proof.
  intros Hb. revert item extraItem.
  induction Hb as [|c rest Hc Hrest IH]; intros item extraItem Hf Hsp Hitem.
  - cbn [app shifted fst snd putInCabinet_loop].
    rewrite (addItem_hasSpace _ _ Hsp). cbn [bind]. now rewrite Z.eqb_refl.
  - inversion Hf as [|? ? Hfc Hf']; subst. pose proof Hfc as [Hfull Hns].
    assert (Hlast : last (mStorage c) item <> kSentinelItem).
    { pose proof (shifted_not_sentinel item [c]) as H. cbn [shifted snd] in H.
      apply H; auto. }
    cbn [app putInCabinet_loop shifted].
    rewrite (addItem_when_full item c Hc Hfull). cbn [bind].
    destruct (Z.eqb_spec (last (mStorage c) item) kSentinelItem); [contradiction|].
    cbn [negb]. rewrite (IH _ _ Hf' Hsp Hlast).
    destruct (shifted (last (mStorage c) item) rest) as [rest' out].
    reflexivity.
Qed.

(** X17: the cascade stops at the first cabinet with space.  When the
    workbench holds an item other than the sentinel and the cabinets before
    the first one with space are full and hold no sentinel, clearing the
    workbench shifts those full cabinets by one item each; the cabinet with
    space takes at its front what reached it and gives nothing up; the
    cabinets behind it are not touched; and Outside gets a sentinel entry at
    its front, giving up its back entry if it had no space. *)
Theorem drain_stops_at_first_space
    (ws : WorkShop) (w : Item) (before after : list Cabinet) (cab : Cabinet) :
  WF ws ->
  mStorage (mWorkbench ws) = [w] ->
  w <> kSentinelItem ->
  mCabinets ws = before ++ cab :: after ->
  Forall full before ->
  hasSpace cab = true ->
  drain ws
  = Some (mkWorkShop
            (mkCabinet (mSize (mOutside ws))
               (kSentinelItem
                :: (if hasSpace (mOutside ws) then mStorage (mOutside ws)
                    else removelast (mStorage (mOutside ws)))))
            (mkCabinet 1 [])
            (fst (shifted w before)
               ++ mkCabinet (mSize cab) (snd (shifted w before) :: mStorage cab)
               :: after)).
Proof.
  intros Hwf Hwb Hw Ecabs Hfull Hsp. pose proof Hwf as [Hbo _ Hbc].
  rewrite Ecabs in Hbc. apply Forall_app in Hbc as [Hbb _].
  destruct (drain_cases ws Hwf) as [[E _] | (w' & E & ->)]; [congruence|].
  rewrite Hwb in E. injection E as <-.
  unfold putInCabinet. cbn [mCabinets mOutside mWorkbench]. rewrite Ecabs.
  rewrite (putInCabinet_loop_stops _ _ _ w kSentinelItem Hbb Hfull Hsp Hw).
  cbn [bind]. pose proof (shifted_not_sentinel w _ Hbb Hfull Hw) as Hout.
  destruct (Z.eqb_spec (snd (shifted w before)) kSentinelItem); [contradiction|].
  cbn [negb]. destruct (hasSpace (mOutside ws)) eqn:Hroom.
  - rewrite (addItem_hasSpace _ _ Hroom). reflexivity.
  - rewrite (addItem_when_full _ _ Hbo Hroom). reflexivity.
Qed.

Lemma drain_stops_at_first_space_witness :
  drain (mkWorkShop (mkCabinet 65535 []) (mkCabinet 1 [30])
                    [mkCabinet 1 [20]; mkCabinet 2 [10]; mkCabinet 1 [5]])
  = Some (mkWorkShop
            (mkCabinet 65535
               (kSentinelItem
                :: (if hasSpace (mkCabinet 65535 []) then []
                    else removelast [])))
            (mkCabinet 1 [])
            (fst (shifted 30 [mkCabinet 1 [20]])
               ++ mkCabinet 2 (snd (shifted 30 [mkCabinet 1 [20]]) :: [10])
               :: [mkCabinet 1 [5]])).
Proof.
  apply (drain_stops_at_first_space
           (mkWorkShop (mkCabinet 65535 []) (mkCabinet 1 [30])
                       [mkCabinet 1 [20]; mkCabinet 2 [10]; mkCabinet 1 [5]])
           30 [mkCabinet 1 [20]] [mkCabinet 1 [5]] (mkCabinet 2 [10])).
  - constructor; cbn [mOutside mWorkbench mCabinets].
    + split; cbn [mSize mStorage length]; lia.
    + split; cbn [mSize mStorage length]; [reflexivity | lia].
    + repeat constructor; cbn [mSize mStorage length]; lia.
  - reflexivity.
  - discriminate.
  - reflexivity.
  - repeat constructor; cbn [mStorage In]; intros H; intuition discriminate.
  - reflexivity.
Defined.

(** * Properties of [main] *)

Lemma is_invalid_cabinet_size_false (size : Z) :
  is_invalid_cabinet_size size = false <-> valid_cabinet_size size.
Proof.
  unfold is_invalid_cabinet_size, valid_cabinet_size.
  destruct (Z.leb_spec size 0) as [Ha|Ha], (Z.geb_spec size 1024) as [Hb|Hb];
    cbn [orb]; split; intros Hv; try discriminate; try reflexivity; lia.
Qed.

Lemma read_sizes_valid (toks : list (list Ascii.ascii)) (acc sizes : list Z) :
  read_sizes toks acc = Some sizes ->
  Forall valid_cabinet_size acc ->
  Forall valid_cabinet_size sizes.
Proof.
  revert acc. induction toks as [|tok toks IH]; intros acc Hr Hacc.
  - now injection Hr as <-.
  - cbn [read_sizes] in Hr. destruct (INT_MAX <? decimal tok).
    + now injection Hr as <-.
    + destruct (is_invalid_cabinet_size (decimal tok)) eqn:E; [discriminate|].
      apply (IH _ Hr). apply Forall_app. split; [exact Hacc|].
      constructor; [|constructor]. now apply is_invalid_cabinet_size_false.
Qed.

Lemma stoll_range (input : string) (value : Z) :
  stoll input = Some value ->
  - 9223372036854775808 <= value <= kSentinelItem.
Proof.
  unfold stoll.
  destruct (match drop_while isspace (list_ascii_of_string input) with
            | [] => _ | c :: rest => _ end) as [negative chars'].
  destruct (take_while isdigit chars') as [|d ds]; [discriminate|].
  set (v := if negative then _ else _).
  destruct (Z.ltb_spec v (- 9223372036854775808)),
           (Z.ltb_spec kSentinelItem v); cbn [orb]; try discriminate.
  intros [= <-]. lia.
Qed.

Lemma turns_positive (nrElements : Z) :
  - 9223372036854775808 <= nrElements <= kSentinelItem ->
  nrElements <> 0 ->
  0 < nrElements mod 18446744073709551616
  /\ (0 < nrElements -> nrElements mod 18446744073709551616 = nrElements)
  /\ (nrElements < 0 -> 9223372036854775808 <= nrElements mod 18446744073709551616).
Proof.
  unfold kSentinelItem. intros Hr Hn.
  pose proof (Z.div_mod nrElements 18446744073709551616) as Hd.
  pose proof (Z.mod_pos_bound nrElements 18446744073709551616) as Hb.
  lia.
Qed.

Lemma printed_provenance (n : nat) (res : Result) :
  provenance n res ->
  Z.of_nat n <= 64 ->
  printed res = inr "NEW"%string
  \/ printed res = inr "OUTSIDE"%string
  \/ exists k, 1 <= k <= Z.of_nat n /\ printed res = inl k.
Proof.
  intros [-> | [-> | (k & Hk & ->)]] Hn.
  - now left.
  - right. now left.
  - right. right. exists k. split; [exact Hk|]. apply printed_number.
    unfold kSentinelItem. lia.
Qed.

Lemma main_loop_range (lines : list string) (turns : Z) (ws : WorkShop)
                      (res : Result) :
  WF ws ->
  Z.of_nat (length (mCabinets ws)) <= 64 ->
  0 < turns \/ provenance (length (mCabinets ws)) res ->
  main_loop lines turns ws res = INPUT_ERROR
  \/ main_loop lines turns ws res = PRINT (inr "NEW"%string)
  \/ main_loop lines turns ws res = PRINT (inr "OUTSIDE"%string)
  \/ exists k, 1 <= k <= Z.of_nat (length (mCabinets ws))
               /\ main_loop lines turns ws res = PRINT (inl k).
Proof.
  revert turns ws res. induction lines as [|line lines IH];
    intros turns ws res Hwf Hn Hres; cbn [main_loop];
    destruct (Z.leb_spec turns 0) as [Hle|Hgt].
  - destruct Hres as [H|H]; [lia|].
    destruct (printed_provenance _ _ H Hn) as [-> | [-> | (k & Hk & ->)]];
      [now right; left | now right; right; left | right; right; right; now exists k].
  - now left.
  - destruct Hres as [H|H]; [lia|].
    destruct (printed_provenance _ _ H Hn) as [-> | [-> | (k & Hk & ->)]];
      [now right; left | now right; right; left | right; right; right; now exists k].
  - destruct (stoll line) as [item|]; [|now left].
    destruct (workOn_shape item ws Hwf) as (res' & ws' & -> & Hwf' & _ & Hs & _ & Hp).
    assert (Hlen : length (mCabinets ws') = length (mCabinets ws))
      by (rewrite <- (length_map mSize (mCabinets ws')), Hs; apply length_map).
    rewrite <- Hlen in Hp, Hn |- *. apply IH; auto.
Qed.

(** X11: whatever standard input holds, no call that [main] makes into the
    workshop trips an assertion of [Cabinet] or reads the back of an empty
    deque, and [main] prints one of four things: INPUT_ERROR, NEW, OUTSIDE,
    or a cabinet number.  Whenever it prints a result the workshop was built
    from sizes read from the first line, each between 1 and 1023 and at most
    64 of them, and a number printed is at least 1 and at most the count of
    those sizes.  ([std::isdigit] is taken to answer false for a byte of
    0x80 or more, where the C library leaves it undefined.) *)
Theorem main_prints_error_or_place (stdin : list string) :
  main stdin = INPUT_ERROR
  \/ exists cabinetSizes,
       read_sizes (tokens (hd EmptyString stdin)) [] = Some cabinetSizes
       /\ Forall valid_cabinet_size cabinetSizes
       /\ Z.of_nat (length cabinetSizes) <= 64
       /\ (main stdin = PRINT (inr "NEW"%string)
           \/ main stdin = PRINT (inr "OUTSIDE"%string)
           \/ exists k, 1 <= k <= Z.of_nat (length cabinetSizes)
                        /\ main stdin = PRINT (inl k)).
Proof.
  unfold main, readInt.
  destruct (valid_read (hd EmptyString stdin)); cbn [negb]; [|now left].
  destruct (read_sizes (tokens (hd EmptyString stdin)) []) as [sizes|] eqn:Er;
    [|now left].
  destruct (Z.ltb_spec 64 (Z.of_nat (length sizes))) as [|Hn]; [now left|].
  destruct (stoll (hd EmptyString (tl stdin))) as [n|] eqn:En; [|now left].
  destruct (Z.eqb_spec n 0) as [|Hn0]; [now left|].
  pose proof (read_sizes_valid _ _ _ Er (Forall_nil _)) as Hv.
  destruct (WorkShop_new_WF sizes Hv) as [Hwf _].
  destruct (turns_positive n (stoll_range _ _ En) Hn0) as [Hpos _].
  assert (Hlen : length (mCabinets (WorkShop_new sizes)) = length sizes)
    by (cbn [WorkShop_new mCabinets]; apply length_map).
  destruct (main_loop_range (tl (tl stdin)) (n mod 18446744073709551616)
              (WorkShop_new sizes) Result_default Hwf) as [H|H];
    [rewrite Hlen; exact Hn | now left | now left |].
  right. exists sizes. rewrite Hlen in H. auto.
Qed.

Lemma main_loop_short (lines : list string) (turns : Z) (ws : WorkShop)
                      (res : Result) :
  WF ws ->
  Z.of_nat (length lines) < turns ->
  main_loop lines turns ws res = INPUT_ERROR.
Proof.
  revert turns ws res. induction lines as [|line lines IH];
    intros turns ws res Hwf Hshort; cbn [main_loop length] in *;
    destruct (Z.leb_spec turns 0); try lia; [reflexivity|].
  destruct (stoll line) as [item|]; [|reflexivity].
  destruct (workOn_shape item ws Hwf) as (res' & ws' & -> & Hwf' & _).
  apply IH; [exact Hwf' | lia].
Qed.

(** X12: [main] wants one line for every item it was told to expect.  When
    the lines after the count are fewer than the count, the answer is
    INPUT_ERROR, whatever the lines hold; a negative count is compared as an
    unsigned number of at least 2^63 and so asks for more lines than that. *)
Theorem main_needs_a_line_per_item
    (sizes_line count_line : string) (lines : list string) (nrElements : Z) :
  stoll count_line = Some nrElements ->
  Z.of_nat (length lines) < nrElements mod 18446744073709551616 ->
  main (sizes_line :: count_line :: lines) = INPUT_ERROR
  /\ (nrElements < 0 ->
      9223372036854775808 <= nrElements mod 18446744073709551616).
Proof.
  intros Hc Hshort. split.
  - unfold main, readInt. cbn [hd tl].
    destruct (valid_read sizes_line); cbn [negb]; [|reflexivity].
    destruct (read_sizes (tokens sizes_line) []) as [sizes|] eqn:Er; [|reflexivity].
    destruct (64 <? Z.of_nat (length sizes)); [reflexivity|].
    rewrite Hc. destruct (nrElements =? 0); [reflexivity|].
    apply main_loop_short; [|exact Hshort].
    apply WorkShop_new_WF. exact (read_sizes_valid _ _ _ Er (Forall_nil _)).
  - intros Hneg. apply turns_positive; [now apply (stoll_range count_line) | lia | exact Hneg].
Qed.

Lemma main_needs_a_line_per_item_witness :
  main ["3 2"; "-1"; "10"; "20"; "10"]%string = INPUT_ERROR
  /\ (-1 < 0 -> 9223372036854775808 <= -1 mod 18446744073709551616).
Proof.
  apply (main_needs_a_line_per_item "3 2" "-1" ["10"; "20"; "10"]%string (-1)).
  - reflexivity.
  - cbn [length]. reflexivity.
Defined.

Lemma last_nonempty (r d d' : Result) (ress : list Result) :
  last (r :: ress) d = last (r :: ress) d'.
Proof.
  revert r. induction ress as [|r' ress IH]; intros r; [reflexivity|].
  change (last (r' :: ress) d = last (r' :: ress) d'). apply IH.
Qed.

Lemma last_cons_default (res res' : Result) (ress : list Result) :
  last (res' :: ress) res = last ress res'.
Proof.
  destruct ress as [|r ress]; [reflexivity|].
  change (last (r :: ress) res = last (r :: ress) res'). apply last_nonempty.
Qed.

Lemma main_loop_run (item_lines rest : list string) (items : list Item)
                    (turns : Z) (ws : WorkShop) (res : Result) :
  Forall2 (fun line item => stoll line = Some item) item_lines items ->
  turns = Z.of_nat (length items) ->
  main_loop (item_lines ++ rest) turns ws res
  = match run ws items with
    | Some (ress, _) => PRINT (printed (last ress res))
    | None => FAULT
    end.
Proof.
  intros Hlines. revert turns ws res.
  induction Hlines as [|line item item_lines items Hline _ IH];
    intros turns ws res Ht; cbn [length] in Ht.
  - subst turns. cbn [app run last]. now destruct rest.
  - rewrite Nat2Z.inj_succ in Ht. cbn [app main_loop run].
    destruct (Z.leb_spec turns 0); [lia|].
    rewrite Hline. destruct (workOn item ws) as [[res' ws']|]; [|reflexivity].
    cbn [bind]. rewrite (IH (turns - 1)) by lia.
    destruct (run ws' items) as [[ress ws'']|]; [|reflexivity].
    cbn [bind]. now rewrite last_cons_default.
Qed.

(** X13: on well-formed input [main] prints the result of the last item.
    When the first line gives at most 64 valid sizes, the second line the
    count of items, and the following lines those items, the output is what
    the last of the calls of [workOn] on these items reports; lines after
    the counted ones are not read. *)
Theorem main_prints_last_result
    (sizes_line count_line : string) (item_lines rest : list string)
    (cabinetSizes : list Z) (items : list Item) :
  valid_read sizes_line = true ->
  read_sizes (tokens sizes_line) [] = Some cabinetSizes ->
  Z.of_nat (length cabinetSizes) <= 64 ->
  stoll count_line = Some (Z.of_nat (length items)) ->
  items <> [] ->
  Forall2 (fun line item => stoll line = Some item) item_lines items ->
  exists ress res,
    process_all cabinetSizes items = Some (ress ++ [res])
    /\ main (sizes_line :: count_line :: item_lines ++ rest) = PRINT (printed res).
Proof.
  intros Hread Hsizes Hn Hcount Hne Hlines.
  pose proof (read_sizes_valid _ _ _ Hsizes (Forall_nil _)) as Hv.
  destruct (WorkShop_new_WF cabinetSizes Hv) as [Hwf _].
  destruct (run_shape items _ Hwf) as (ress0 & ws & Hr & _ & Hlen & _).
  assert (Hress : ress0 <> [])
    by (intros ->; destruct items; [congruence | discriminate]).
  destruct (exists_last Hress) as (ress & res & ->).
  exists ress, res. unfold process_all. rewrite Hr. cbn [bind].
  split; [reflexivity|].
  unfold main, readInt. cbn [hd tl]. rewrite Hread, Hsizes. cbn [negb].
  destruct (Z.ltb_spec 64 (Z.of_nat (length cabinetSizes))); [lia|].
  rewrite Hcount.
  assert (Hpos : 0 < Z.of_nat (length items))
    by (destruct items; [congruence | cbn [length]; lia]).
  destruct (Z.eqb_spec (Z.of_nat (length items)) 0); [lia|].
  destruct (turns_positive _ (stoll_range _ _ Hcount)) as (_ & Hmod & _); [lia|].
  rewrite (Hmod Hpos).
  rewrite (main_loop_run _ _ _ _ _ _ Hlines eq_refl), Hr. now rewrite last_last.
Qed.

Lemma main_prints_last_result_witness :
  exists ress res,
    process_all [1] [10; 20; 10] = Some (ress ++ [res])
    /\ main ("1" :: "3" :: ["10"; "20"; "10"] ++ ["30"; "junk"])%string
       = PRINT (printed res).
Proof.
  apply (main_prints_last_result "1" "3" ["10"; "20"; "10"]%string
           ["30"; "junk"]%string [1] [10; 20; 10]).
  - reflexivity.
  - reflexivity.
  - cbn [length]. lia.
  - reflexivity.
  - discriminate.
  - repeat constructor.
Defined.

Lemma read_sizes_good (good more : list (list Ascii.ascii)) (acc : list Z) :
  Forall (fun tok => valid_cabinet_size (decimal tok)) good ->
  read_sizes (good ++ more) acc = read_sizes more (acc ++ map decimal good).
Proof.
  intros Hgood. revert acc.
  induction Hgood as [|tok good Htok _ IH]; intros acc; cbn [app map read_sizes].
  - now rewrite app_nil_r.
  - pose proof Htok as [H0 H1]. unfold INT_MAX.
    destruct (Z.ltb_spec 2147483647 (decimal tok)); [lia|].
    rewrite (proj2 (is_invalid_cabinet_size_false _) Htok), IH.
    now rewrite <- app_assoc.
Qed.

(** X14: in the loop that reads the sizes the first number that is not a
    valid size decides.  Numbers between 1 and 1023 are collected in order.
    A number that is 0, or 1024 or more but still an [int], is an
    INPUT_ERROR.  A number too large for an [int] makes the extraction fail,
    which ends the loop without an error: the sizes before it are kept and
    whatever follows it on the line is never looked at. *)
Theorem first_bad_size_decides (good more : list (list Ascii.ascii))
                               (bad : list Ascii.ascii) :
  Forall (fun tok => valid_cabinet_size (decimal tok)) good ->
  read_sizes good [] = Some (map decimal good)
  /\ (INT_MAX < decimal bad ->
      read_sizes (good ++ bad :: more) [] = Some (map decimal good))
  /\ (decimal bad <= INT_MAX -> ~ valid_cabinet_size (decimal bad) ->
      read_sizes (good ++ bad :: more) [] = None).
Proof.
  intros Hgood. split; [|split].
  - rewrite <- (app_nil_r good) at 1. now rewrite read_sizes_good.
  - intros Hbig. rewrite read_sizes_good by exact Hgood. cbn [read_sizes app].
    now destruct (Z.ltb_spec INT_MAX (decimal bad)); [|lia].
  - intros Hint Hbad. rewrite read_sizes_good by exact Hgood. cbn [read_sizes app].
    destruct (Z.ltb_spec INT_MAX (decimal bad)); [lia|].
    destruct (is_invalid_cabinet_size (decimal bad)) eqn:E; [reflexivity|].
    now apply is_invalid_cabinet_size_false in E.
Qed.

Lemma first_bad_size_decides_witness :
  read_sizes (tokens "5 17"%string) [] = Some (map decimal (tokens "5 17"%string))
  /\ (INT_MAX < decimal (hd [] (tokens "99999999999"%string)) ->
      read_sizes (tokens "5 17"%string
                    ++ hd [] (tokens "99999999999"%string) :: tokens "0 x"%string) []
      = Some (map decimal (tokens "5 17"%string)))
  /\ (decimal (hd [] (tokens "99999999999"%string)) <= INT_MAX ->
      ~ valid_cabinet_size (decimal (hd [] (tokens "99999999999"%string))) ->
      read_sizes (tokens "5 17"%string
                    ++ hd [] (tokens "99999999999"%string) :: tokens "0 x"%string) []
      = None).
Proof.
  apply (first_bad_size_decides (tokens "5 17"%string) (tokens "0 x"%string)
           (hd [] (tokens "99999999999"%string))).
  repeat constructor.
Defined.

(** X18: the first line may hold digits and spaces only.  A single other
    character in it, a sign or a letter or a tab, makes [main] answer
    INPUT_ERROR, whatever the rest of the input is; so a negative size
    cannot even be written. *)
Theorem main_rejects_other_characters (stdin : list string) (c : Ascii.ascii) :
  In c (list_ascii_of_string (hd EmptyString stdin)) ->
  is_blank c = false ->
  isdigit c = false ->
  main stdin = INPUT_ERROR.
Proof.
  intros Hin Hb Hd. unfold main.
  destruct (valid_read (hd EmptyString stdin)) eqn:E; [|reflexivity].
  unfold valid_read in E. rewrite forallb_forall in E.
  specialize (E c Hin). rewrite Hb, Hd in E. discriminate.
Qed.

Lemma main_rejects_other_characters_witness :
  main ["3 -2"; "1"; "5"]%string = INPUT_ERROR.
Proof.
  apply (main_rejects_other_characters ["3 -2"; "1"; "5"]%string
           (Ascii.ascii_of_nat 45)).
  - cbn. right. right. now left.
  - reflexivity.
  - reflexivity.
Defined.
